(** * ai_translator: cache store, output formatter and batch translation engine

    A shallow embedding of [src/ai_translator.py] and the properties of its
    caching and formatting core.

    Conventions of the model.
    - A Python [str] is kept as the [string] of the bytes of its UTF-8
      encoding.  [len] and slicing count characters (code points): a
      character starts at every byte that is not a continuation byte.  Case
      mapping ([lower], [upper], [capitalize]) and white space ([strip],
      the regular expression class [\s]) are those of the ASCII range, the
      range of the identifiers the formatter produces, and the bytes of the
      other characters are carried unchanged: the formatter of the model is
      the formatter of the module on ASCII text ([ascii_text]), and the
      statements that need this say so.
    - A Python [dict] with string keys is a [gmap string _]; the decoded
      oracle object is kept as the list of its items, in the order
      [dict.items()] yields them.
    - [hash] (seeded per process) and [json.loads] belong to the Python
      runtime and are parameters of the development, and so is the file
      system: whether writing given data to the cache file completes or
      raises.
    - The external process is a function from the prompt to what
      [subprocess.run] gives back; every cache probe, oracle call and
      completed cache flush is recorded in a trace of events.  The
      diagnostics printed on [stderr] are left out. *)

From Stdlib Require Import Ascii.
From stdpp Require Import gmap strings list fin_maps pretty.

Local Open Scope Z_scope.

(** ** Characters and strings *)

Module PyStr.

(** [str.isspace] on the ASCII range: TAB, LF, VT, FF, CR, the four
    separators 0x1c-0x1f and the space.  ([str.strip] and the class [\s]
    also take the white space outside this range, U+0085, U+00A0, U+3000
    and others, whose bytes the model carries as they are.) *)
Definition is_space (c : ascii) : bool :=
  let n := N_of_ascii c in
  ((9 <=? n) && (n <=? 13) || (28 <=? n) && (n <=? 32))%N.

(** Case mapping on the ASCII range; [str.lower] and [str.upper] also map
    the letters outside it, whose bytes the model carries as they are. *)
Definition lower_char (c : ascii) : ascii :=
  let n := N_of_ascii c in
  if ((65 <=? n) && (n <=? 90))%N then ascii_of_N (n + 32) else c.

Definition upper_char (c : ascii) : ascii :=
  let n := N_of_ascii c in
  if ((97 <=? n) && (n <=? 122))%N then ascii_of_N (n - 32) else c.

(** The class of the two quote characters: the double quote (code 34)
    and the apostrophe. *)
Definition is_quote (c : ascii) : bool :=
  bool_decide (c = "034"%char) || bool_decide (c = "'"%char).

Fixpoint map (f : ascii → ascii) (s : string) : string :=
  match s with
  | EmptyString => EmptyString
  | String c s' => String (f c) (map f s')
  end.

Fixpoint all (P : ascii → bool) (s : string) : bool :=
  match s with
  | EmptyString => true
  | String c s' => P c && all P s'
  end.

(** [text.lower()] and [text.upper()]. *)
Definition lower : string → string := map lower_char.
Definition upper : string → string := map upper_char.

(** [w.capitalize()] on ASCII text: first character upper case, the
    others lower case. *)
Definition capitalize (w : string) : string :=
  match w with
  | EmptyString => EmptyString
  | String c w' => String (upper_char c) (lower w')
  end.

Fixpoint lstrip (s : string) : string :=
  match s with
  | EmptyString => EmptyString
  | String c s' => if is_space c then lstrip s' else s
  end.

Fixpoint rstrip (s : string) : string :=
  match s with
  | EmptyString => EmptyString
  | String c s' =>
      match rstrip s' with
      | EmptyString => if is_space c then EmptyString else String c EmptyString
      | r => String c r
      end
  end.

(** [text.strip()]. *)
Definition strip (s : string) : string := rstrip (lstrip s).

(** [''.join(ws)]. *)
Definition concat (ws : list string) : string :=
  foldr String.app EmptyString ws.

(** A character of the ASCII range: a byte below 128. *)
Definition is_ascii (c : ascii) : bool := (N_of_ascii c <? 128)%N.

(** A continuation byte of the UTF-8 encoding (codes 128 to 191): every
    other byte starts a character. *)
Definition is_continuation (c : ascii) : bool :=
  let n := N_of_ascii c in
  ((128 <=? n) && (n <=? 191))%N.

(** The number of characters of the text. *)
Fixpoint chars (s : string) : nat :=
  match s with
  | EmptyString => O
  | String c s' => if is_continuation c then chars s' else S (chars s')
  end.

(** [s[:n]] for [0 <= n]: the first [n] characters, each with its
    continuation bytes. *)
Fixpoint take (n : nat) (s : string) : string :=
  match s with
  | EmptyString => EmptyString
  | String c s' =>
      if is_continuation c then String c (take n s')
      else
        match n with
        | O => EmptyString
        | S n' => String c (take n' s')
        end
  end.

(** [len(s)]. *)
Definition len (s : string) : Z := Z.of_nat (chars s).

(** [s[:n]] with Python's reading of a negative bound: counted from the
    end, and clamped at the start of the string. *)
Definition slice_to (n : Z) (s : string) : string :=
  if 0 <=? n then take (Z.to_nat n) s else take (Z.to_nat (len s + n)) s.

End PyStr.

(** ** The regular expressions of the module

    Each pattern of the formatter is a character class followed by [+] (or a
    bare class): a match is a maximal run of characters of the class. *)

Module Re.

(** [re.sub(r'[cls]', '', s)]: every character of the class is removed. *)
Fixpoint remove (cls : ascii → bool) (s : string) : string :=
  match s with
  | EmptyString => EmptyString
  | String c s' => if cls c then remove cls s' else String c (remove cls s')
  end.

(** [re.sub(r'[cls]+', rep, s)]: every maximal run is replaced by [rep];
    [in_run] tells that the previous character belonged to a run. *)
Fixpoint sub_go (cls : ascii → bool) (rep : string) (in_run : bool)
    (s : string) : string :=
  match s with
  | EmptyString => EmptyString
  | String c s' =>
      if cls c then
        if in_run then sub_go cls rep true s'
        else rep +:+ sub_go cls rep true s'
      else String c (sub_go cls rep false s')
  end.

Definition sub (cls : ascii → bool) (rep s : string) : string :=
  sub_go cls rep false s.

(** [re.split(r'[cls]+', s)]: the pieces between the runs, with an empty
    piece before a leading run and after a trailing one; [['']] for the
    empty string. *)
Fixpoint split_go (cls : ascii → bool) (in_run : bool) (s : string)
    : list string :=
  match s with
  | EmptyString => [EmptyString]
  | String c s' =>
      if cls c then
        if in_run then split_go cls true s'
        else EmptyString :: split_go cls true s'
      else
        match split_go cls false s' with
        | w :: ws => String c w :: ws
        | [] => [String c EmptyString]
        end
  end.

Definition split (cls : ascii → bool) (s : string) : list string :=
  split_go cls false s.

(** [re.search(r'\{[^{}]*\}', s)]: the leftmost opening brace whose next
    brace is a closing one, with what lies between; [open] holds the text
    read since the last opening brace. *)
Fixpoint search_go (open : option string) (s : string) : option string :=
  match s with
  | EmptyString => None
  | String c s' =>
      if bool_decide (c = "{"%char) then search_go (Some "{") s'
      else if bool_decide (c = "}"%char) then
        match open with
        | Some body => Some (body +:+ "}")
        | None => search_go None s'
        end
      else search_go ((λ body, body +:+ String c EmptyString) <$> open) s'
  end.

Definition search_object (s : string) : option string := search_go None s.

End Re.

(** ** Output formatter *)

(** [\s], [[\s_]], [[\s-]] and [[\s_-]]. *)
Definition ws (c : ascii) : bool := PyStr.is_space c.
Definition ws_underscore (c : ascii) : bool :=
  PyStr.is_space c || bool_decide (c = "_"%char).
Definition ws_hyphen (c : ascii) : bool :=
  PyStr.is_space c || bool_decide (c = "-"%char).
Definition ws_underscore_hyphen (c : ascii) : bool :=
  PyStr.is_space c || bool_decide (c = "_"%char) || bool_decide (c = "-"%char).

(** The three cleaning statements that open [_format_output]. *)
Definition clean (text : string) : string :=
  let text := PyStr.lower (PyStr.strip text) in
  let text := Re.remove PyStr.is_quote text in
  Re.sub ws " " text.

(** A character that the cleaning statements leave as it is, white space
    apart: not a quote and not an upper-case letter. *)
Definition cleaned (c : ascii) : bool :=
  negb (PyStr.is_quote c) && bool_decide (PyStr.lower_char c = c).

(** [Translator._format_output]; [output_format] is the translator's field. *)
Definition _format_output (output_format : string) (text : string) : string :=
  let text := clean text in
  if bool_decide (output_format = "kebab-case") then
    Re.sub ws_underscore "-" text
  else if bool_decide (output_format = "snake_case") then
    Re.sub ws_hyphen "_" text
  else if bool_decide (output_format = "camelCase") then
    match Re.split ws_underscore_hyphen text with
    | w :: words => w +:+ PyStr.concat (PyStr.capitalize <$> words)
    | [] => EmptyString
    end
  else if bool_decide (output_format = "PascalCase") then
    PyStr.concat (PyStr.capitalize <$> Re.split ws_underscore_hyphen text)
  else if bool_decide (output_format = "lowercase") then
    Re.sub ws_underscore_hyphen "" text
  else if bool_decide (output_format = "UPPERCASE") then
    PyStr.upper (Re.sub ws_underscore_hyphen "_" text)
  else text.

(** A text of the ASCII range: on such a text the case mapping and the
    white space of the model are those of Python, and [_format_output]
    above is the formatter of the module. *)
Definition ascii_text (s : string) : Prop :=
  PyStr.all PyStr.is_ascii s = true.

(** The six members of [OutputFormat]. *)
Definition output_formats : list string :=
  ["kebab-case"; "snake_case"; "camelCase"; "PascalCase"; "lowercase";
   "UPPERCASE"].

(** ** Data of the engine *)

(** A value of the decoded oracle object: a string, or anything else JSON
    allows inside a flat object (number, array, [true], [false], [null]),
    on which [_format_output] raises [AttributeError]. *)
Inductive json_value : Type :=
  | JString (s : string)
  | JOther.

(** What [subprocess.run(..., timeout=120)] gives back: the process ran to
    its end, the wait expired, or the call raised something else (the
    executable is missing, for instance). *)
Inductive run_result : Type :=
  | CompletedProcess (returncode : Z) (stdout : string)
  | TimeoutExpired
  | RunError.

(** The runtime the module relies on: the built-in [hash] on strings,
    [json.loads] on a brace-delimited text ([None] is [JSONDecodeError];
    the items come in the order of the decoded [dict]), and the file system
    under [_save]: whether opening the cache file and dumping the given data
    into it completes ([false] is the exception raised when the file cannot
    be written or the data hold a character the UTF-8 writer refuses, a
    lone surrogate for instance, which [json.loads] accepts). *)
Class PyRuntime : Type := {
  py_hash : string → Z;
  json_loads : string → option (list (string * json_value));
  file_write : gmap string string → bool;
}.

(** A computation that returns or raises. *)
Inductive io (A : Type) : Type :=
  | Returns (a : A)
  | Raises.
Arguments Returns {A} a.
Arguments Raises {A}.

Global Instance io_ret : MRet io := λ A a, Returns a.
Global Instance io_bind : MBind io := λ A B k m,
  match m with
  | Returns a => k a
  | Raises => Raises
  end.

(** [TranslationCache]: the in-memory [_data]. *)
Record TranslationCache : Type := { _data : gmap string string }.

(** What a call does to the world around it, in order. *)
Inductive event : Type :=
  | CacheGet (key : string)
  | CacheSave (data : gmap string string)
  | OracleRun (prompt : string).

(** [Translator]. *)
Record Translator : Type := {
  context : option string;
  output_format : string;
  max_length : Z;
  cache : TranslationCache;
}.

(** A finished call: the returned [dict], the translator afterwards and the
    events of the call. *)
Record outcome : Type := {
  returned : gmap string string;
  after : Translator;
  trace : list event;
}.

Definition translation_failed : string := "translation-failed".

Definition newline : string := String (ascii_of_N 10) EmptyString.

(** [sep.join(parts)]. *)
Fixpoint join (sep : string) (parts : list string) : string :=
  match parts with
  | [] => EmptyString
  | [p] => p
  | p :: rest => p +:+ sep +:+ join sep rest
  end.

(** Truth value of what [dict.get] returns: [None] and [''] are false. *)
Definition truthy (o : option string) : bool :=
  match o with
  | Some (String _ _) => true
  | _ => false
  end.

(** ** Cache store *)

Section CacheStore.
Context {rt : PyRuntime}.

(** [TranslationCache._make_key]. *)
Definition _make_key (text : string) (context : option string)
    (output_format : string) : string :=
  let context_hash := py_hash (default "" context) `mod` 10000 in
  output_format +:+ "|" +:+ pretty context_hash +:+ "|" +:+ text.

(** The bucket of a context: what [_make_key] keeps of it. *)
Definition bucket (context : option string) : Z :=
  py_hash (default "" context) `mod` 10000.

(** [TranslationCache.get]. *)
Definition get (self : TranslationCache) (text : string)
    (context : option string) (output_format : string) : option string :=
  _data self !! _make_key text context output_format.

(** [TranslationCache._save]: the completed flush, or the exception of the
    write. *)
Definition _save (self : TranslationCache) : io (list event) :=
  if file_write (_data self) then Returns [CacheSave (_data self)] else Raises.

(** [TranslationCache.set]: the store afterwards (the entry is assigned
    before the write, so also when the write raises) and what [_save]
    gives. *)
Definition set (self : TranslationCache) (text : string)
    (context : option string) (output_format translation : string)
    : TranslationCache * io (list event) :=
  let data := <[_make_key text context output_format := translation]> (_data self) in
  ({| _data := data |}, _save {| _data := data |}).

(** [TranslationCache.set_batch]: one insertion per item, then one
    [_save]. *)
Definition set_batch (self : TranslationCache)
    (translations : gmap string string) (context : option string)
    (output_format : string) : TranslationCache * io (list event) :=
  let data :=
    map_fold (λ text translation data,
                <[_make_key text context output_format := translation]> data)
             (_data self) translations in
  ({| _data := data |}, _save {| _data := data |}).

End CacheStore.

(** ** Prompt builder *)

(** The table [format_instructions] of [_build_prompt]. *)
Definition format_instructions (output_format : string) : option string :=
  if bool_decide (output_format = "kebab-case") then
    Some "kebab-case（小寫字母和連字號，如 power-board-test）"
  else if bool_decide (output_format = "snake_case") then
    Some "snake_case（小寫字母和底線，如 power_board_test）"
  else if bool_decide (output_format = "camelCase") then
    Some "camelCase（駝峰命名，如 powerBoardTest）"
  else if bool_decide (output_format = "PascalCase") then
    Some "PascalCase（大駝峰命名，如 PowerBoardTest）"
  else if bool_decide (output_format = "lowercase") then
    Some "lowercase（純小寫無分隔，如 powerboardtest）"
  else if bool_decide (output_format = "UPPERCASE") then
    Some "UPPERCASE（純大寫底線分隔，如 POWER_BOARD_TEST）"
  else None.

(** [Translator._build_prompt]. *)
Definition _build_prompt (self : Translator) (texts : list string) : string :=
  let format_desc :=
    default (output_format self) (format_instructions (output_format self)) in
  let texts_list :=
    join newline (imap (λ i t, pretty (Z.of_nat i + 1) +:+ ". " +:+ t) texts) in
  let prompt :=
    "將以下中文文字翻譯為簡短的英文。

要求：
- 使用 " +:+ format_desc +:+ " 格式
- 每個翻譯不超過 " +:+ pretty (max_length self) +:+ " 個字元
- 翻譯應簡潔且具有描述性
- 輸出格式為 JSON 物件，key 是原始中文，value 是英文翻譯
- 只輸出 JSON，不要有其他文字
" in
  let prompt :=
    match context self with
    | Some (String _ _ as ctx) =>
        prompt +:+ "
背景資訊（請參考以下 context 來理解專業術語和領域知識）：
---
" +:+ ctx +:+ "
---
"
    | _ => prompt
    end in
  prompt +:+ "
需要翻譯的文字：
" +:+ texts_list.

(** ** Batch translation engine *)

(** The state of the first loop of [batch_translate]: the hits, the list
    [texts_to_translate] and the probes made so far. *)
Record probe_state : Type := {
  hits : gmap string string;
  texts_to_translate : list string;
  probes : list event;
}.

Definition probe_init : probe_state :=
  {| hits := ∅; texts_to_translate := []; probes := [] |}.

(** The length rule applied to a formatted translation: kept when at most
    [max_length + 10] long, cut at [max_length] otherwise. *)
Definition fit_length (max_length : Z) (formatted : string) : string :=
  if bool_decide (PyStr.len formatted ≤ max_length + 10) then formatted
  else PyStr.slice_to max_length formatted.

(** [{**results, **{t: 'translation-failed' for t in texts_to_translate}}]:
    the entries of the second operand win. *)
Definition with_failures (results : gmap string string)
    (texts_to_translate : list string) : gmap string string :=
  list_to_map ((λ t, (t, translation_failed)) <$> texts_to_translate) ∪ results.

Section Engine.
Context {rt : PyRuntime}.

(** The loop over [texts] that probes the cache. *)
Fixpoint check_cache (self : Translator) (texts : list string)
    (st : probe_state) : probe_state :=
  match texts with
  | [] => st
  | text :: rest =>
      let cached := get (cache self) text (context self) (output_format self) in
      let log :=
        probes st ++
        [CacheGet (_make_key text (context self) (output_format self))] in
      match cached with
      | Some (String _ _ as translation) =>
          check_cache self rest
            {| hits := <[text := translation]> (hits st);
               texts_to_translate := texts_to_translate st;
               probes := log |}
      | _ =>
          check_cache self rest
            {| hits := hits st;
               texts_to_translate := texts_to_translate st ++ [text];
               probes := log |}
      end
  end.

(** The loop over [translations.items()]: the results so far, and whether
    [_format_output] raised on a value that is not a string. *)
Fixpoint format_items (self : Translator)
    (items : list (string * json_value)) (results : gmap string string)
    : gmap string string * bool :=
  match items with
  | [] => (results, false)
  | (original, JString translated) :: rest =>
      let formatted := _format_output (output_format self) translated in
      format_items self rest
        (<[original := fit_length (max_length self) formatted]> results)
  | (_, JOther) :: _ => (results, true)
  end.

(** A phrase whose cached value passes the test [if cached]. *)
Definition is_hit (self : Translator) (text : string) : bool :=
  truthy (get (cache self) text (context self) (output_format self)).

(** The list [texts_to_translate] at the end of the first loop. *)
Definition to_translate (self : Translator) (texts : list string)
    : list string :=
  texts_to_translate (check_cache self texts probe_init).

(** [Translator.batch_translate], with the external process [claude].
    Every exception raised inside the [try] ends in a handler that returns
    the results so far with the failure sentinel for every to-translate
    phrase: so does the exception of [_save] under [set_batch], which
    leaves the entries already assigned in [_data]. *)
Definition batch_translate (claude : string → run_result)
    (self : Translator) (texts : list string) : outcome :=
  match texts with
  | [] => {| returned := ∅; after := self; trace := [] |}
  | _ =>
      let st := check_cache self texts probe_init in
      let results := hits st in
      let todo := texts_to_translate st in
      match todo with
      | [] => {| returned := results; after := self; trace := probes st |}
      | _ =>
          let prompt := _build_prompt self todo in
          let log := probes st ++ [OracleRun prompt] in
          let failure results :=
            {| returned := with_failures results todo;
               after := self; trace := log |} in
          match claude prompt with
          | TimeoutExpired | RunError => failure results
          | CompletedProcess returncode stdout =>
              if bool_decide (returncode ≠ 0) then failure results
              else
                let output := PyStr.strip stdout in
                match Re.search_object output with
                | None => failure results
                | Some json_match =>
                    match json_loads json_match with
                    | None => failure results
                    | Some translations =>
                        match format_items self translations results with
                        | (results, true) => failure results
                        | (results, false) =>
                            let new_translations :=
                              filter (λ kv, kv.1 ∈ todo) results in
                            let '(cache', saved) :=
                              set_batch (cache self) new_translations
                                (context self) (output_format self) in
                            let self' :=
                              {| context := context self;
                                 output_format := output_format self;
                                 max_length := max_length self;
                                 cache := cache' |} in
                            match saved with
                            | Returns flush =>
                                {| returned := results; after := self';
                                   trace := log ++ flush |}
                            | Raises =>
                                {| returned := with_failures results todo;
                                   after := self'; trace := log |}
                            end
                        end
                    end
                end
          end
      end
  end.

(** [Translator.translate]. *)
Definition translate (claude : string → run_result) (self : Translator)
    (text : string) : string * outcome :=
  let o := batch_translate claude self [text] in
  (default translation_failed (returned o !! text), o).

(** *** Vocabulary of the statements *)

(** The ways the oracle fails a batch: the wait expires, the process
    exits with a non-zero code, its output holds no brace-delimited
    object, or that object does not decode. *)
Inductive oracle_failure : run_result → Prop :=
  | failure_timeout : oracle_failure TimeoutExpired
  | failure_exit returncode stdout :
      returncode ≠ 0 → oracle_failure (CompletedProcess returncode stdout)
  | failure_no_object stdout :
      Re.search_object (PyStr.strip stdout) = None →
      oracle_failure (CompletedProcess 0 stdout)
  | failure_decode stdout json_match :
      Re.search_object (PyStr.strip stdout) = Some json_match →
      json_loads json_match = None →
      oracle_failure (CompletedProcess 0 stdout).

(** The oracle answered with an object that decodes to [translations]. *)
Definition oracle_object (r : run_result)
    (translations : list (string * json_value)) : Prop :=
  ∃ stdout json_match,
    r = CompletedProcess 0 stdout ∧
    Re.search_object (PyStr.strip stdout) = Some json_match ∧
    json_loads json_match = Some translations.

(** Every value of the object is a string. *)
Definition string_valued (translations : list (string * json_value)) : Prop :=
  Forall (λ kv, ∃ translated, kv.2 = JString translated) translations.



End Engine.

(** ** Test doubles

    A concrete runtime and oracle for the examples: a polynomial hash, a
    decoder that knows the flat objects of a given table (and raises on any
    other text), and an external process that prints a fixed answer. *)

Module Fixture.

Definition dquote : string := String "034"%char EmptyString.

Definition quoted (s : string) : string := dquote +:+ s +:+ dquote.

(** The JSON text of a flat object with string values. *)
Definition object_text (items : list (string * string)) : string :=
  "{" +:+ join ", " ((λ kv, quoted kv.1 +:+ ": " +:+ quoted kv.2) <$> items)
      +:+ "}".

Fixpoint loads (known : list (list (string * string))) (s : string)
    : option (list (string * json_value)) :=
  match known with
  | [] => None
  | items :: rest =>
      if bool_decide (object_text items = s)
      then Some ((λ kv : string * string, (kv.1, JString kv.2)) <$> items)
      else loads rest s
  end.

Fixpoint hash_go (acc : Z) (s : string) : Z :=
  match s with
  | EmptyString => acc
  | String c s' => hash_go (31 * acc + Z.of_N (N_of_ascii c)) s'
  end.

Definition hash (s : string) : Z := hash_go 0 s.

(** The cache file can be written. *)
Definition runtime (known : list (list (string * string))) : PyRuntime :=
  {| py_hash := hash; json_loads := loads known; file_write := λ _, true |}.

(** The same runtime on a cache file that cannot be written. *)
Definition read_only (known : list (list (string * string))) : PyRuntime :=
  {| py_hash := hash; json_loads := loads known; file_write := λ _, false |}.

Definition answers (stdout : string) : string → run_result :=
  λ _, CompletedProcess 0 stdout.

Definition never_answers : string → run_result := λ _, TimeoutExpired.

(** A translator without context on a given store. *)
Definition translator (output_format : string) (max_length : Z)
    (data : gmap string string) : Translator :=
  {| context := None; output_format := output_format;
     max_length := max_length; cache := {| _data := data |} |}.

(** The objects the oracle prints in the examples. *)
Definition long_name : string := "main power supply board functional test rig".
Definition object_a : list (string * string) :=
  [("X", "Power Board"); ("Z", "Main Unit")].
Definition object_b : list (string * string) := [("電源板", "Power Board")].
Definition object_c : list (string * string) := [("X", long_name)].
Definition object_d : list (string * string) := [("X", "Power Board")].


Definition rt0 : PyRuntime := runtime [object_a; object_b; object_c; object_d].
Definition rt_locked : PyRuntime :=
  read_only [object_a; object_b; object_c; object_d].

Definition kebab30 : Translator := translator "kebab-case" 30 ∅.

(** A store that holds the empty string for the phrase X. *)
Definition stale : Translator :=
  translator "kebab-case" 30 {[ "kebab-case|0|X" := "" ]}.

(** The oracle prints object A (an entry for X and one for Z). *)
Definition claude_a : string → run_result :=
  answers ("Here you are: " +:+ object_text object_a).

(** Two calls on the list of X alone. *)
Definition first_call : outcome :=
  batch_translate (rt := rt0) claude_a kebab30 ["X"].


End Fixture.

(** ** Context discovery *)

(** What reading a path gives: the text of a file, or an exception (a
    directory, a file that cannot be read or decoded). *)
Inductive node : Type :=
  | Text (content : string)
  | Unreadable.

(** The world [_load_context] looks at: the variable
    [AI_TRANSLATOR_CONTEXT], the paths that exist (those of the working
    directory by their name), and, when [docs] is a directory, what
    [sorted(docs_dir.glob('*.md'))] yields, as names with their nodes. *)
Record environment : Type := {
  environ_context : option string;
  paths : gmap string node;
  docs_md : option (list (string * node));
}.

(** [path.read_text(encoding='utf-8')]. *)
Definition read_text (n : node) : io string :=
  match n with
  | Text content => Returns content
  | Unreadable => Raises
  end.

(** [content[:n] + '\n...(truncated)'] when [len(content) > n]. *)
Definition truncated (n : nat) (content : string) : string :=
  if bool_decide (Z.of_nat n < PyStr.len content)
  then PyStr.take n content +:+ newline +:+ "...(truncated)"
  else content.

(** The loop over the dedicated context files, left at the first one that
    exists. *)
Fixpoint load_dedicated (env : environment) (patterns : list string)
    (collected : list string) : io (list string) :=
  match patterns with
  | [] => Returns collected
  | pattern :: rest =>
      match paths env !! pattern with
      | Some n =>
          content ← read_text n;
          Returns (collected ++ ["# From " +:+ pattern +:+ newline +:+ content])
      | None => load_dedicated env rest collected
      end
  end.

(** A project file of which the first [limit] characters are kept. *)
Definition load_project_file (env : environment) (name header : string)
    (limit : nat) (collected : list string) : io (list string) :=
  match paths env !! name with
  | Some n =>
      content ← read_text n;
      Returns (collected ++ [header +:+ newline +:+ truncated limit content])
  | None => Returns collected
  end.

(** The loop over the files of [docs]. *)
Fixpoint load_docs (files : list (string * node)) (docs_content : list string)
    : io (list string) :=
  match files with
  | [] => Returns docs_content
  | (name, n) :: rest =>
      content ← read_text n;
      load_docs rest
        (docs_content ++ ["## " +:+ name +:+ newline +:+ truncated 500 content])
  end.

(** The directly given context, when it is not empty. *)
Definition add_context (context : option string) (collected : list string)
    : list string :=
  match context with
  | Some (String _ _ as c) => collected ++ [c]
  | _ => collected
  end.

(** The file named by [context_file], when it exists (a path is never
    false). *)
Definition load_context_file (env : environment) (context_file : option string)
    (collected : list string) : io (list string) :=
  match context_file with
  | Some file =>
      match paths env !! file with
      | Some n =>
          text ← read_text n;
          Returns (collected ++ ["# From " +:+ file +:+ newline +:+ text])
      | None => Returns collected
      end
  | None => Returns collected
  end.

(** The variable [AI_TRANSLATOR_CONTEXT], when it is set and not empty. *)
Definition add_environ (env : environment) (collected : list string)
    : list string :=
  match environ_context env with
  | Some (String _ _ as env_context) => collected ++ [env_context]
  | _ => collected
  end.

(** The first five markdown files of [docs], when it is a directory. *)
Definition load_docs_dir (env : environment) (collected : list string)
    : io (list string) :=
  match docs_md env with
  | Some files =>
      docs_content ← load_docs (take 5 files) [];
      match docs_content with
      | [] => Returns collected
      | _ =>
          Returns (collected ++
                   ["# From docs/" +:+ newline
                    +:+ join (newline +:+ newline) docs_content])
      end
  | None => Returns collected
  end.

Definition context_patterns : list string :=
  [".context.md"; ".context.txt"; "CONTEXT.md"; "context.md"].

Definition context_separator : string :=
  newline +:+ newline +:+ "---" +:+ newline +:+ newline.

(** [Translator._load_context]. *)
Definition _load_context (env : environment) (context : option string)
    (context_file : option string) : io (option string) :=
  let collected := add_context context [] in
  collected ← load_context_file env context_file collected;
  let collected := add_environ env collected in
  collected ← load_dedicated env context_patterns collected;
  collected ←
    load_project_file env "CLAUDE.md" "# From CLAUDE.md (project description)"
      2000 collected;
  collected ← load_project_file env "README.md" "# From README.md" 1500 collected;
  collected ← load_docs_dir env collected;
  Returns
    match collected with
    | [] => None
    | _ => Some (join context_separator collected)
    end.

(** A project with a README, a dedicated context file and two documents,
    one of which cannot be read but comes sixth. *)
Definition project : environment :=
  {| environ_context := None;
     paths := {[ "README.md" := Text "A translator.";
                 ".context.md" := Text "FCT test terms." ]};
     docs_md := Some [("a.md", Text "one"); ("b.md", Text "two");
                      ("c.md", Text "three"); ("d.md", Text "four");
                      ("e.md", Text "five"); ("f.md", Unreadable)] |}.

(** A directory whose CLAUDE.md cannot be read. *)
Definition locked : environment :=
  {| environ_context := Some "FCT";
     paths := {[ "CLAUDE.md" := Unreadable ]};
     docs_md := None |}.

(** ** Vocabulary of the further properties *)

(** The text with its first character in upper case. *)
Definition upper_first (s : string) : string :=
  match s with
  | EmptyString => EmptyString
  | String c s' => String (PyStr.upper_char c) s'
  end.

(** [t] occurs in [s]. *)
Definition occurs (t s : string) : Prop := ∃ pre post, s = pre +:+ t +:+ post.

(** [p] is a prefix of [s]. *)
Definition prefix_of (p s : string) : Prop := ∃ rest, s = p +:+ rest.

(** A format name without the separator of the cache keys. *)
Definition pipe_free (output_format : string) : Prop :=
  PyStr.all (λ c, negb (bool_decide (c = "|"%char))) output_format = true.

(** A piece of the cleaned text between two runs of separators. *)
Definition word_char (c : ascii) : bool :=
  cleaned c && negb (ws_underscore_hyphen c).

(** [collected'] is [collected] followed by non-empty texts. *)
Definition grows (collected collected' : list string) : Prop :=
  ∃ added, collected' = collected ++ added ∧ Forall (λ x, x ≠ "") added.

(** The event is a flush of the store. *)
Definition is_flush (e : event) : bool :=
  match e with
  | CacheSave _ => true
  | _ => false
  end.

Section EngineVocabulary.
Context {rt : PyRuntime}.

(** What the handler [except Exception] of [batch_translate] catches:
    [subprocess.run] raised something other than the timeout, or the
    decoded object holds a value that is not a string. *)
Inductive other_exception : run_result → Prop :=
  | exception_run : other_exception RunError
  | exception_format stdout json_match translations original :
      Re.search_object (PyStr.strip stdout) = Some json_match →
      json_loads json_match = Some translations →
      (original, JOther) ∈ translations →
      other_exception (CompletedProcess 0 stdout).

End EngineVocabulary.

(** A runtime whose decoder knows one object, with a number for X. *)
Definition number_text : string := "{" +:+ Fixture.quoted "X" +:+ ": 5}".

Definition number_runtime : PyRuntime :=
  {| py_hash := Fixture.hash;
     json_loads := λ s, if bool_decide (s = number_text)
                        then Some [("X", JOther)] else None;
     file_write := λ _, true |}.




(** A store that holds a translation for X. *)
Definition warm : Translator :=
  Fixture.translator "kebab-case" 30 {[ "kebab-case|0|X" := "power-board" ]}.

(** * Properties *)

(** ** Strings and patterns *)

(** Facts about single characters are settled by running through the 256
    of them. *)
Ltac each_char :=
  intros [[] [] [] [] [] [] [] []]; vm_compute;
  solve [ reflexivity | discriminate | intros; discriminate | intros; reflexivity
        | intros; congruence ].

Example split_edges :
  Re.split ws_underscore_hyphen " a b " = [""; "a"; "b"; ""] ∧
  Re.split ws_underscore_hyphen "" = [""] ∧
  Re.split ws_underscore_hyphen "_" = [""; ""] ∧
  Re.split ws_underscore_hyphen "a__b" = ["a"; "b"].
Proof. repeat split; reflexivity. Qed.

Example sub_runs : Re.sub ws_underscore "-" " a _ b" = "-a-b".
Proof. reflexivity. Qed.

Example search_skips_unclosed :
  Re.search_object "see {a {k: v} and {x}" = Some "{k: v}" ∧
  Re.search_object "}{" = None.
Proof. split; reflexivity. Qed.

(** Lengths and slices count characters, not bytes. *)
Example chars_not_bytes :
  PyStr.len "電源板" = 3 ∧ String.length "電源板" = 9%nat ∧
  PyStr.take 2 "電源板" = "電源" ∧ PyStr.slice_to (-1) "電源板a" = "電源板" ∧
  fit_length 30 "電源板電源板電源板電源板電源板" = "電源板電源板電源板電源板電源板".
Proof. repeat split; vm_compute; reflexivity. Qed.

Example slice_negative :
  PyStr.slice_to (-2) "abcdef" = "abcd" ∧ PyStr.slice_to (-5) "ab" = "".
Proof. split; reflexivity. Qed.

Section StringFacts.
Implicit Types (P Q cls : ascii → bool) (s rep : string) (c : ascii).

Lemma app_cons c s1 s2 : String c s1 +:+ s2 = String c (s1 +:+ s2).
Proof. reflexivity. Qed.

Lemma app_empty_l s : "" +:+ s = s.
Proof. reflexivity. Qed.

Lemma all_app P s1 s2 :
  PyStr.all P (s1 +:+ s2) = PyStr.all P s1 && PyStr.all P s2.
Proof.
  induction s1 as [|c s1 IH]; [done|].
  rewrite app_cons. simpl. by rewrite IH, andb_assoc.
Qed.

Lemma all_impl P Q s :
  (∀ c, P c = true → Q c = true) → PyStr.all P s = true → PyStr.all Q s = true.
Proof.
  intros HPQ. induction s as [|c s IH]; simpl; [done|].
  intros [Hc Hs]%andb_prop. by rewrite (HPQ c Hc), IH.
Qed.

Lemma all_map P Q (f : ascii → ascii) s :
  (∀ c, Q c = true → P (f c) = true) →
  PyStr.all Q s = true → PyStr.all P (PyStr.map f s) = true.
Proof.
  intros Hf. induction s as [|c s IH]; simpl; [done|].
  intros [Hc Hs]%andb_prop. by rewrite (Hf c Hc), IH.
Qed.

Lemma map_fixed Q (f : ascii → ascii) s :
  (∀ c, Q c = true → f c = c) → PyStr.all Q s = true → PyStr.map f s = s.
Proof.
  intros Hf. induction s as [|c s IH]; simpl; [done|].
  intros [Hc Hs]%andb_prop. by rewrite (Hf c Hc), IH.
Qed.

Lemma map_map_fixed Q (f g : ascii → ascii) s :
  (∀ c, Q c = true → g (f c) = c) →
  PyStr.all Q s = true → PyStr.map g (PyStr.map f s) = s.
Proof.
  intros Hf. induction s as [|c s IH]; simpl; [done|].
  intros [Hc Hs]%andb_prop. by rewrite (Hf c Hc), IH.
Qed.

Lemma lstrip_fixed s :
  PyStr.all (λ c, negb (PyStr.is_space c)) s = true → PyStr.lstrip s = s.
Proof.
  destruct s as [|c s]; simpl; [done|].
  intros [Hc _]%andb_prop. by apply negb_true_iff in Hc as ->.
Qed.

Lemma rstrip_fixed s :
  PyStr.all (λ c, negb (PyStr.is_space c)) s = true → PyStr.rstrip s = s.
Proof.
  induction s as [|c s IH]; simpl; [done|].
  intros [Hc Hs]%andb_prop. rewrite (IH Hs).
  apply negb_true_iff in Hc as ->. by destruct s.
Qed.

Lemma strip_fixed s :
  PyStr.all (λ c, negb (PyStr.is_space c)) s = true → PyStr.strip s = s.
Proof.
  intros Hs. unfold PyStr.strip. rewrite (lstrip_fixed s Hs).
  by apply rstrip_fixed.
Qed.

Lemma remove_fixed cls s :
  PyStr.all (λ c, negb (cls c)) s = true → Re.remove cls s = s.
Proof.
  induction s as [|c s IH]; simpl; [done|].
  intros [Hc Hs]%andb_prop. apply negb_true_iff in Hc as ->. by rewrite IH.
Qed.

Lemma remove_all P Q cls s :
  (∀ c, Q c = true → cls c = false → P c = true) →
  PyStr.all Q s = true → PyStr.all P (Re.remove cls s) = true.
Proof.
  intros HP. induction s as [|c s IH]; simpl; [done|].
  intros [Hc Hs]%andb_prop. destruct (cls c) eqn:Hcls; simpl; [by apply IH|].
  by rewrite (HP c Hc Hcls), IH.
Qed.

Lemma sub_go_fixed cls rep b s :
  PyStr.all (λ c, negb (cls c)) s = true → Re.sub_go cls rep b s = s.
Proof.
  revert b. induction s as [|c s IH]; intros b; simpl; [done|].
  intros [Hc Hs]%andb_prop. apply negb_true_iff in Hc as ->. by rewrite IH.
Qed.

Lemma sub_go_all P Q cls rep b s :
  (∀ c, Q c = true → cls c = false → P c = true) →
  PyStr.all P rep = true →
  PyStr.all Q s = true → PyStr.all P (Re.sub_go cls rep b s) = true.
Proof.
  intros HP Hrep. revert b. induction s as [|c s IH]; intros b; simpl; [done|].
  intros [Hc Hs]%andb_prop. destruct (cls c) eqn:Hcls.
  - destruct b; [by apply IH|]. by rewrite all_app, Hrep, IH.
  - simpl. by rewrite (HP c Hc Hcls), IH.
Qed.

(** Replacing the runs by one character of the class is idempotent. *)
Lemma sub_go_idem cls r b s :
  cls r = true →
  Re.sub_go cls (String r "") b (Re.sub_go cls (String r "") b s)
  = Re.sub_go cls (String r "") b s.
Proof.
  intros Hr. revert b. induction s as [|c s IH]; intros b; simpl; [done|].
  destruct (cls c) eqn:Hcls.
  - destruct b; [apply IH|].
    rewrite app_cons, app_empty_l. simpl. rewrite Hr.
    by rewrite app_cons, app_empty_l, (IH true).
  - simpl. rewrite Hcls. by rewrite (IH false).
Qed.

End StringFacts.

Lemma app_empty_r (s : string) : s +:+ "" = s.
Proof. induction s as [|c s IH]; [done|]. by rewrite app_cons, IH. Qed.

Lemma string_app_assoc (a b c : string) : (a +:+ b) +:+ c = a +:+ b +:+ c.
Proof. induction a as [|x a IH]; [done|]. by rewrite !app_cons, IH. Qed.

Lemma occurs_refl (t : string) : occurs t t.
Proof. exists "", "". by rewrite app_empty_l, app_empty_r. Qed.

Lemma occurs_app_l (t a b : string) : occurs t a → occurs t (a +:+ b).
Proof.
  intros (pre & post & ->). exists pre, (post +:+ b).
  by rewrite !string_app_assoc.
Qed.

Lemma occurs_app_r (t a b : string) : occurs t b → occurs t (a +:+ b).
Proof.
  intros (pre & post & ->). exists (a +:+ pre), post.
  by rewrite !string_app_assoc.
Qed.

Lemma occurs_join (sep : string) (parts : list string) (i : nat) (x : string) :
  parts !! i = Some x → occurs x (join sep parts).
Proof.
  revert i. induction parts as [|p parts IH]; intros i Hi; [done|].
  destruct i as [|i]; simpl in Hi.
  - injection Hi as ->. destruct parts; [apply occurs_refl|].
    apply occurs_app_l, occurs_refl.
  - destruct parts as [|q parts]; [done|].
    change (join sep (p :: q :: parts)) with (p +:+ sep +:+ join sep (q :: parts)).
    apply occurs_app_r, occurs_app_r. by apply (IH i).
Qed.

(** ** Characters and lengths *)

Lemma chars_le_length (s : string) : (PyStr.chars s ≤ String.length s)%nat.
Proof.
  induction s as [|c s IH]; simpl; [done|].
  destruct (PyStr.is_continuation c); lia.
Qed.

(** On ASCII text a character is a byte. *)
Lemma chars_ascii (s : string) : ascii_text s → PyStr.chars s = String.length s.
Proof.
  unfold ascii_text. induction s as [|c s IH]; simpl; [done|].
  intros [Hc Hs]%andb_prop. rewrite (IH Hs).
  assert (PyStr.is_continuation c = false) as ->; [|done].
  revert c Hc. clear. each_char.
Qed.

Lemma take_chars (n : nat) (s : string) :
  (n ≤ PyStr.chars s)%nat → PyStr.chars (PyStr.take n s) = n.
Proof.
  revert n. induction s as [|c s IH]; intros n; simpl; [lia|].
  destruct (PyStr.is_continuation c) eqn:Hc; simpl.
  - rewrite Hc. apply IH.
  - destruct n as [|n]; simpl; [done|]. rewrite Hc. intros Hn. rewrite IH; lia.
Qed.

Lemma take_prefix (n : nat) (s : string) : prefix_of (PyStr.take n s) s.
Proof.
  revert n. induction s as [|c s IH]; intros n; simpl; [by exists ""|].
  destruct (PyStr.is_continuation c).
  - destruct (IH n) as [rest Hrest]. exists rest. by rewrite app_cons, <-Hrest.
  - destruct n as [|n]; [by eexists; rewrite app_empty_l|].
    destruct (IH n) as [rest Hrest]. exists rest. by rewrite app_cons, <-Hrest.
Qed.

(** ** Prompt builder *)

(** The prompt lists every phrase it is given, numbered from 1. *)
Lemma build_prompt_item (self : Translator) (texts : list string) (i : nat)
    (t : string) :
  texts !! i = Some t →
  occurs (pretty (Z.of_nat i + 1) +:+ ". " +:+ t) (_build_prompt self texts).
Proof.
  intros Hi. unfold _build_prompt. cbv zeta. apply occurs_app_r, occurs_app_r.
  apply (occurs_join _ _ i). by rewrite list_lookup_imap, Hi.
Qed.

(** ** Output formatter *)

Example format_kebab_quotes :
  _format_output "kebab-case" "  'Main'  Power_Board " = "main-power-board".
Proof. reflexivity. Qed.

Example format_camel_edges : _format_output "camelCase" "' a b '" = "AB".
Proof. reflexivity. Qed.

Example format_unknown_convention :
  _format_output "Title Case" "  Power   Board " = "power board".
Proof. reflexivity. Qed.

(** C8. The formatting table of the specification: "Power Board" becomes
    power-board in kebab-case, power_board in snake_case and powerBoard in
    camelCase; "power board test" becomes PowerBoardTest in PascalCase;
    "Power-Board" becomes powerboard in lowercase; "power board" becomes
    POWER_BOARD in UPPERCASE. *)
Theorem format_output_table :
  _format_output "kebab-case" "Power Board" = "power-board" ∧
  _format_output "snake_case" "Power Board" = "power_board" ∧
  _format_output "camelCase" "Power Board" = "powerBoard" ∧
  _format_output "PascalCase" "power board test" = "PowerBoardTest" ∧
  _format_output "lowercase" "Power-Board" = "powerboard" ∧
  _format_output "UPPERCASE" "power board" = "POWER_BOARD".
Proof. repeat split; vm_compute; reflexivity. Qed.

Lemma lower_char_cleaned c :
  bool_decide (PyStr.lower_char (PyStr.lower_char c) = PyStr.lower_char c) = true.
Proof. revert c. each_char. Qed.

Lemma cleaned_keep_unquoted c :
  bool_decide (PyStr.lower_char c = c) = true → PyStr.is_quote c = false →
  cleaned c = true.
Proof. unfold cleaned. by intros -> ->. Qed.

Lemma clean_all s : PyStr.all cleaned (clean s) = true.
Proof.
  unfold clean, Re.sub.
  apply (sub_go_all _ cleaned); [done|done|].
  apply (remove_all _ (λ c, bool_decide (PyStr.lower_char c = c)));
    [apply cleaned_keep_unquoted|].
  apply (all_map _ (λ _, true)); [intros c _; apply lower_char_cleaned|].
  by apply (all_impl (λ _, true)); [|induction (PyStr.strip s)].
Qed.

Lemma clean_fixed s :
  PyStr.all (λ c, cleaned c && negb (PyStr.is_space c)) s = true → clean s = s.
Proof.
  intros Hs. unfold clean, Re.sub.
  assert (PyStr.all (λ c, negb (PyStr.is_space c)) s = true) as Hspace.
  { revert Hs. apply all_impl. intros c. by intros [_ ?]%andb_prop. }
  assert (PyStr.all (λ c, negb (PyStr.is_quote c)) s = true) as Hquote.
  { revert Hs. apply all_impl. intros c. by intros [[? _]%andb_prop _]%andb_prop. }
  rewrite strip_fixed by done. unfold PyStr.lower.
  rewrite (map_fixed (λ c, cleaned c && negb (PyStr.is_space c))); [|clear|done].
  - rewrite remove_fixed by done. by apply sub_go_fixed.
  - by intros c [[_ ?%bool_decide_eq_true]%andb_prop _]%andb_prop.
Qed.

(** A convention that replaces the runs of a class containing the white
    space by text outside the class yields text that the formatter leaves
    unchanged. *)
Lemma sub_clean_fixed cls rep s :
  (∀ c, PyStr.is_space c = true → cls c = true) →
  PyStr.all (λ c, cleaned c && negb (cls c)) rep = true →
  let y := Re.sub cls rep (clean s) in
  clean y = y ∧ Re.sub cls rep y = y.
Proof.
  intros Hcls Hrep y.
  assert (PyStr.all (λ c, cleaned c && negb (cls c)) y = true) as Hy.
  { apply (sub_go_all _ cleaned); [|done|apply clean_all].
    intros c Hc Hn. by rewrite Hc, Hn. }
  split.
  - apply clean_fixed. revert Hy. apply all_impl.
    intros c [Hc Hn]%andb_prop. rewrite Hc. simpl.
    destruct (PyStr.is_space c) eqn:Hsp; [|done].
    by rewrite (Hcls c Hsp) in Hn.
  - apply sub_go_fixed. revert Hy. apply all_impl.
    intros c. by intros [_ ?]%andb_prop.
Qed.

Lemma upper_sub_clean_fixed s :
  let z := Re.sub ws_underscore_hyphen "_" (clean s) in
  clean (PyStr.upper z) = z.
Proof.
  intros z.
  assert (PyStr.all (λ c, cleaned c && negb (PyStr.is_space c)) z = true) as Hz.
  { apply (sub_go_all _ cleaned); [|done|apply clean_all].
    intros c Hc. unfold ws_underscore_hyphen.
    intros [[-> _]%orb_false_elim _]%orb_false_elim. by rewrite Hc. }
  rewrite <-(clean_fixed z Hz) at 2. unfold clean. f_equal. f_equal.
  assert (PyStr.strip (PyStr.upper z) = PyStr.upper z) as ->.
  { apply strip_fixed. revert Hz. apply all_map. clear. each_char. }
  assert (PyStr.strip z = z) as ->.
  { apply strip_fixed. revert Hz. apply all_impl. intros c. by intros [_ ?]%andb_prop. }
  unfold PyStr.lower, PyStr.upper.
  rewrite (map_map_fixed (λ c, cleaned c && negb (PyStr.is_space c)));
    [|clear; each_char|done].
  symmetry. revert Hz. apply map_fixed. clear. each_char.
Qed.

(** C4 (counterexample). In camelCase the formatter maps "Power Board" to
    powerBoard and powerBoard to powerboard: formatting twice differs from
    formatting once. *)
Lemma format_output_camelCase_not_idempotent :
  _format_output "camelCase" (_format_output "camelCase" "Power Board")
  ≠ _format_output "camelCase" "Power Board".
Proof. vm_compute. discriminate. Qed.

Example format_output_PascalCase_not_idempotent :
  _format_output "PascalCase" "power board test" = "PowerBoardTest" ∧
  _format_output "PascalCase" "PowerBoardTest" = "Powerboardtest".
Proof. split; vm_compute; reflexivity. Qed.

(** C4 (amended). For each of the four conventions kebab-case, snake_case,
    lowercase and UPPERCASE and every phrase, formatting the formatted text
    again gives the same text. *)
Theorem format_output_idempotent (F raw : string) :
  F ∈ ["kebab-case"; "snake_case"; "lowercase"; "UPPERCASE"] →
  _format_output F (_format_output F raw) = _format_output F raw.
Proof.
  intros HF.
  repeat (apply elem_of_cons in HF as [->|HF]); [| | | |by apply elem_of_nil in HF].
  - change (_format_output "kebab-case") with (λ t, Re.sub ws_underscore "-" (clean t)).
    simpl. destruct (sub_clean_fixed ws_underscore "-" raw) as [-> ->]; try done.
    intros c Hc. unfold ws_underscore. by rewrite Hc.
  - change (_format_output "snake_case") with (λ t, Re.sub ws_hyphen "_" (clean t)).
    simpl. destruct (sub_clean_fixed ws_hyphen "_" raw) as [-> ->]; try done.
    intros c Hc. unfold ws_hyphen. by rewrite Hc.
  - change (_format_output "lowercase")
      with (λ t, Re.sub ws_underscore_hyphen "" (clean t)).
    simpl. destruct (sub_clean_fixed ws_underscore_hyphen "" raw) as [-> ->]; try done.
    intros c Hc. unfold ws_underscore_hyphen. by rewrite Hc.
  - change (_format_output "UPPERCASE")
      with (λ t, PyStr.upper (Re.sub ws_underscore_hyphen "_" (clean t))).
    simpl. rewrite upper_sub_clean_fixed. unfold Re.sub.
    by rewrite sub_go_idem.
Qed.

(** C4 (witness). UPPERCASE on a phrase with a doubled space. *)
Lemma format_output_idempotent_witness :
  "UPPERCASE" ∈ ["kebab-case"; "snake_case"; "lowercase"; "UPPERCASE"] ∧
  _format_output "UPPERCASE" (_format_output "UPPERCASE" "Power  Board")
  = _format_output "UPPERCASE" "Power  Board".
Proof.
  assert ("UPPERCASE" ∈ ["kebab-case"; "snake_case"; "lowercase"; "UPPERCASE"])
    as HF by (vm_compute; repeat constructor).
  split; [exact HF|].
  exact (format_output_idempotent "UPPERCASE" "Power  Board" HF).
Defined.

(** ** Cache store *)

Lemma string_length_app (s1 s2 : string) :
  String.length (s1 +:+ s2) = (String.length s1 + String.length s2)%nat.
Proof. induction s1 as [|c s1 IH]; [done|]. rewrite app_cons. simpl. by rewrite IH. Qed.

Lemma string_app_inv_tail (s1 s2 t : string) : s1 +:+ t = s2 +:+ t → s1 = s2.
Proof.
  revert s2. induction s1 as [|c s1 IH]; intros [|d s2] Heq; [done| | |].
  - exfalso. apply (f_equal String.length) in Heq.
    rewrite app_empty_l, app_cons in Heq. simpl in Heq.
    rewrite string_length_app in Heq. lia.
  - exfalso. apply (f_equal String.length) in Heq.
    rewrite app_empty_l, app_cons in Heq. simpl in Heq.
    rewrite string_length_app in Heq. lia.
  - rewrite !app_cons in Heq. injection Heq as -> Heq. f_equal. by apply IH.
Qed.

Section CacheStoreFacts.
Context {rt : PyRuntime}.
Implicit Types (self : TranslationCache) (ctx : option string).

Lemma bucket_range ctx : 0 ≤ bucket ctx < 10000.
Proof. unfold bucket. apply Z.mod_pos_bound. lia. Qed.

Lemma make_key_text_inj ctx f : Inj (=) (=) (λ text, _make_key text ctx f).
Proof.
  intros t1 t2 Heq. unfold _make_key in Heq.
  by repeat apply String.app_inj in Heq.
Qed.

Lemma make_key_context text ctxA ctxB f :
  _make_key text ctxA f = _make_key text ctxB f ↔ bucket ctxA = bucket ctxB.
Proof.
  unfold _make_key. fold (bucket ctxA) (bucket ctxB). split; [|by intros ->].
  intros Heq. apply String.app_inj, String.app_inj in Heq.
  apply string_app_inv_tail in Heq. by apply (inj pretty) in Heq.
Qed.

(** Cache round trip. *)
Lemma get_set_same self text ctx f translation :
  get (set self text ctx f translation).1 text ctx f = Some translation.
Proof. apply lookup_insert_eq. Qed.

Lemma get_set_same_bucket self text ctxA ctxB f translation :
  bucket ctxA = bucket ctxB →
  get (set self text ctxA f translation).1 text ctxB f = Some translation.
Proof.
  intros Hb. unfold get, set. simpl.
  apply (make_key_context text ctxA ctxB f) in Hb as ->.
  apply lookup_insert_eq.
Qed.

(** C3 (amended). When the contexts [ctxA] and [ctxB] fall into different
    buckets ([hash(context or '') % 10000]), [set] under [ctxA] leaves the
    lookup of the same phrase and format under [ctxB] as it was: absent
    if it was absent. *)
Theorem get_set_other_bucket self text ctxA ctxB f translation :
  bucket ctxA ≠ bucket ctxB →
  get self text ctxB f = None →
  get (set self text ctxA f translation).1 text ctxB f = None.
Proof.
  intros Hb Hnone. unfold get, set in *. simpl.
  rewrite lookup_insert_ne; [done|].
  intros Heq. by apply make_key_context in Heq.
Qed.

(** [set_batch] leaves alone every key that is not the key of one of
    its items, and writes each item under the key of its phrase. *)
Lemma set_batch_other self (translations : gmap string string) ctx f key :
  (∀ text, is_Some (translations !! text) → _make_key text ctx f ≠ key) →
  _data (set_batch self translations ctx f).1 !! key = _data self !! key.
Proof.
  unfold set_batch. simpl. revert key.
  apply (map_fold_weak_ind (λ data (m : gmap string string), ∀ key,
    (∀ text, is_Some (m !! text) → _make_key text ctx f ≠ key) →
    data !! key = _data self !! key)); [done|].
  intros text v m data Hm IH key Hkey.
  rewrite lookup_insert_ne.
  - apply IH. intros t [w Ht]. apply Hkey. exists w.
    rewrite lookup_insert_ne; [done|]. intros ->. congruence.
  - apply Hkey. rewrite lookup_insert_eq. by eexists.
Qed.

(** How [set_batch] ends: with the flush of the data it leaves, or with
    the exception of the write. *)
Lemma set_batch_saved self (translations : gmap string string) ctx f :
  (set_batch self translations ctx f).2
  = if file_write (_data (set_batch self translations ctx f).1)
    then Returns [CacheSave (_data (set_batch self translations ctx f).1)]
    else Raises.
Proof. reflexivity. Qed.

Lemma set_batch_get self (translations : gmap string string) ctx f text :
  get (set_batch self translations ctx f).1 text ctx f
  = match translations !! text with
    | Some translation => Some translation
    | None => get self text ctx f
    end.
Proof.
  unfold get, set_batch. simpl. revert text.
  apply (map_fold_weak_ind (λ data (m : gmap string string), ∀ text,
    data !! _make_key text ctx f
    = match m !! text with
      | Some translation => Some translation
      | None => _data self !! _make_key text ctx f
      end)); [done|].
  intros t v m data Hm IH text.
  destruct (decide (t = text)) as [->|Hne].
  - by rewrite !lookup_insert_eq.
  - rewrite !lookup_insert_ne; [apply IH|done|].
    intros Heq. by apply make_key_text_inj in Heq.
Qed.

End CacheStoreFacts.

(** C3 (witness). Two contexts that the polynomial hash of the examples sends
    to different buckets. *)
Lemma get_set_other_bucket_witness :
  bucket (rt := Fixture.runtime []) (Some "ctxA")
    ≠ bucket (rt := Fixture.runtime []) (Some "ctxB") ∧
  get (rt := Fixture.runtime []) {| _data := ∅ |} "p" (Some "ctxB") "kebab-case"
    = None ∧
  get (rt := Fixture.runtime [])
      (set (rt := Fixture.runtime []) {| _data := ∅ |} "p" (Some "ctxA")
           "kebab-case" "x").1
      "p" (Some "ctxB") "kebab-case" = None.
Proof.
  assert (bucket (rt := Fixture.runtime []) (Some "ctxA")
          ≠ bucket (rt := Fixture.runtime []) (Some "ctxB")) as Hb
    by (vm_compute; discriminate).
  assert (get (rt := Fixture.runtime []) {| _data := ∅ |} "p" (Some "ctxB")
            "kebab-case" = None) as Hnone by reflexivity.
  split; [exact Hb|]. split; [exact Hnone|].
  exact (get_set_other_bucket (rt := Fixture.runtime []) {| _data := ∅ |} "p"
           (Some "ctxA") (Some "ctxB") "kebab-case" "x" Hb Hnone).
Defined.

(** Absence of context and the empty context share their keys, whatever the
    hash. *)
Example get_set_none_empty_context (rt : PyRuntime) :
  get (set {| _data := ∅ |} "p" None "kebab-case" "x").1 "p" (Some "") "kebab-case"
  = Some "x".
Proof. by apply get_set_same_bucket. Qed.

(** C3 (counterexample). There is no hash under which the claim holds: among
    the 10001 contexts "0", "1", ..., "10000" two fall into the same of the
    10000 buckets, and the entry set under one is returned for the other. *)
Lemma get_set_distinct_contexts_collide :
  ¬ ∃ rt : PyRuntime, ∀ p f ctxA ctxB : string,
      ctxA ≠ ctxB →
      get (set {| _data := ∅ |} p (Some ctxA) f "x").1 p (Some ctxB) f = None.
Proof.
  intros [rt Hclaim].
  pose (ctx := λ i : nat, pretty (Z.of_nat i)).
  pose (g := λ i : nat, Z.to_nat (bucket (Some (ctx i)))).
  assert (∀ i j, g i = g j → i = j) as Hinj.
  { intros i j Hg. destruct (decide (i = j)) as [|Hne]; [done|]. exfalso.
    assert (ctx i ≠ ctx j) as Hctx.
    { unfold ctx. intros Heq. apply (inj pretty) in Heq. lia. }
    specialize (Hclaim "p" "f" (ctx i) (ctx j) Hctx).
    rewrite get_set_same_bucket in Hclaim; [done|].
    pose proof (bucket_range (Some (ctx i))). pose proof (bucket_range (Some (ctx j))).
    unfold g in Hg. lia. }
  assert (NoDup (g <$> seq 0 (Z.to_nat 10001))) as Hnodup.
  { apply NoDup_fmap_2_strong; [|apply NoDup_seq]. intros i j _ _. apply Hinj. }
  assert (g <$> seq 0 (Z.to_nat 10001) ⊆+ seq 0 (Z.to_nat 10000)) as Hsub.
  { apply NoDup_submseteq; [done|]. intros b [i [-> _]]%list_elem_of_fmap.
    apply elem_of_seq. unfold g. pose proof (bucket_range (Some (ctx i))). lia. }
  apply submseteq_length in Hsub.
  rewrite length_fmap, !length_seq in Hsub. lia.
Qed.

(** ** Batch translation engine *)

Lemma failures_lookup (todo : list string) (t : string) :
  (list_to_map ((λ t, (t, translation_failed)) <$> todo) : gmap string string) !! t
  = if decide (t ∈ todo) then Some translation_failed else None.
Proof.
  induction todo as [|u todo IH].
  - rewrite fmap_nil, list_to_map_nil, lookup_empty.
    destruct (decide (t ∈ [])) as [Hin|]; [by apply elem_of_nil in Hin|done].
  - rewrite fmap_cons, list_to_map_cons, lookup_insert. simpl.
    destruct (decide (u = t)) as [->|Hne].
    + rewrite decide_True; [done|by left].
    + rewrite IH. destruct (decide (t ∈ todo)) as [Hin|Hnot].
      * rewrite decide_True; [done|by right].
      * rewrite decide_False; [done|]. by intros [?|?]%elem_of_cons.
Qed.

Lemma with_failures_in (results : gmap string string) todo t :
  t ∈ todo → with_failures results todo !! t = Some translation_failed.
Proof.
  intros Ht. unfold with_failures. apply lookup_union_Some_l.
  by rewrite failures_lookup, decide_True.
Qed.

Lemma with_failures_notin (results : gmap string string) todo t :
  t ∉ todo → with_failures results todo !! t = results !! t.
Proof.
  intros Ht. unfold with_failures. apply lookup_union_r.
  by rewrite failures_lookup, decide_False.
Qed.


Section EngineFacts.
Context {rt : PyRuntime}.
Implicit Types (self : Translator) (texts todo : list string)
  (st : probe_state) (items : list (string * json_value))
  (results : gmap string string) (claude : string → run_result).

Abbreviation key_of self text :=
  (_make_key text (context self) (output_format self)).
Abbreviation cached self text :=
  (get (cache self) text (context self) (output_format self)).

(** *** The probing loop *)

Lemma check_cache_todo self texts st :
  texts_to_translate (check_cache self texts st)
  = texts_to_translate st ++ filter (λ t, is_hit self t = false) texts.
Proof.
  revert st. induction texts as [|t texts IH]; intros st; simpl.
  - by rewrite app_nil_r.
  - rewrite filter_cons.
    assert (is_hit self t = truthy (cached self t)) as Hhit by done.
    destruct (cached self t) as [[|c s]|] eqn:Hget; simpl in Hhit;
      rewrite IH; simpl; rewrite Hhit.
    + rewrite decide_True by done. by rewrite <-app_assoc.
    + by rewrite decide_False by done.
    + rewrite decide_True by done. by rewrite <-app_assoc.
Qed.

Lemma check_cache_probes self texts st :
  probes (check_cache self texts st)
  = probes st ++ ((λ t, CacheGet (key_of self t)) <$> texts).
Proof.
  revert st. induction texts as [|t texts IH]; intros st; simpl.
  - by rewrite app_nil_r.
  - destruct (cached self t) as [[|c s]|]; rewrite IH; simpl;
      by rewrite <-app_assoc.
Qed.

Lemma check_cache_hits self texts st t :
  hits (check_cache self texts st) !! t
  = if decide (t ∈ texts ∧ is_hit self t = true) then cached self t
    else hits st !! t.
Proof.
  revert st. induction texts as [|u texts IH]; intros st; cbn [check_cache].
  - destruct (decide _) as [[Hin _]|]; [by apply elem_of_nil in Hin|done].
  - assert (is_hit self u = truthy (cached self u)) as Hu by done.
    destruct (cached self u) as [[|c s]|] eqn:Hget; simpl in Hu; rewrite IH;
      cbn [hits].
    + destruct (decide (t ∈ texts ∧ _)) as [[Hin Hhit]|Hnot].
      * rewrite decide_True; [done|]. split; [by right|done].
      * rewrite decide_False; [done|].
        intros [[->|Hin]%elem_of_cons Hhit]; [congruence|by apply Hnot].
    + destruct (decide (t ∈ texts ∧ _)) as [[Hin Hhit]|Hnot].
      * rewrite decide_True; [done|]. split; [by right|done].
      * destruct (decide (u = t)) as [->|Hne].
        -- rewrite lookup_insert_eq. rewrite decide_True; [done|].
           split; [by left|done].
        -- rewrite lookup_insert_ne by done. rewrite decide_False; [done|].
           intros [[->|Hin]%elem_of_cons Hhit]; [done|by apply Hnot].
    + destruct (decide (t ∈ texts ∧ _)) as [[Hin Hhit]|Hnot].
      * rewrite decide_True; [done|]. split; [by right|done].
      * rewrite decide_False; [done|].
        intros [[->|Hin]%elem_of_cons Hhit]; [congruence|by apply Hnot].
Qed.

Lemma to_translate_filter self texts :
  to_translate self texts = filter (λ t, is_hit self t = false) texts.
Proof. unfold to_translate. by rewrite check_cache_todo. Qed.

Lemma to_translate_elem self texts t :
  t ∈ to_translate self texts ↔ t ∈ texts ∧ is_hit self t = false.
Proof. rewrite to_translate_filter, list_elem_of_filter. tauto. Qed.

Lemma hits_lookup_hit self texts t :
  t ∈ texts → is_hit self t = true →
  hits (check_cache self texts probe_init) !! t = cached self t.
Proof. intros. by rewrite check_cache_hits, decide_True. Qed.

Lemma hits_lookup_other self texts t :
  t ∉ texts ∨ is_hit self t = false →
  hits (check_cache self texts probe_init) !! t = None.
Proof.
  intros Ht. rewrite check_cache_hits, decide_False; [done|].
  intros [? Hhit]. destruct Ht as [?|Hmiss]; [done|congruence].
Qed.

Lemma is_hit_cached self t :
  is_hit self t = true → ∃ c s, cached self t = Some (String c s).
Proof.
  unfold is_hit. destruct (cached self t) as [[|c s]|]; [done| |done].
  intros _. by exists c, s.
Qed.

(** *** The formatting loop *)


Lemma format_items_completes self items results :
  string_valued items → (format_items self items results).2 = false.
Proof.
  intros Hstr. revert results.
  induction Hstr as [|[k v] items [s Hs] _ IH]; intros results; simpl; [done|].
  simpl in Hs. subst v. apply IH.
Qed.

Lemma format_items_notin self items results k :
  k ∉ items.*1 → (format_items self items results).1 !! k = results !! k.
Proof.
  revert results. induction items as [|[k' [s|]] items IH]; intros results Hk;
    simpl; [done| |done].
  rewrite fmap_cons, not_elem_of_cons in Hk. destruct Hk as [Hne Hk].
  rewrite IH by done. by rewrite lookup_insert_ne.
Qed.





(** *** The paths of [batch_translate] *)

Abbreviation hits_of self texts := (hits (check_cache self texts probe_init)).
Abbreviation probes_of self texts := (probes (check_cache self texts probe_init)).
Abbreviation prompt_of self texts := (_build_prompt self (to_translate self texts)).

Lemma oracle_failure_no_object r items :
  oracle_failure r → ¬ oracle_object r items.
Proof.
  intros Hfail (out & js & -> & Hsearch & Hloads).
  inversion Hfail; subst; congruence.
Qed.

Lemma probes_of_eq self texts :
  probes_of self texts = (λ t, CacheGet (key_of self t)) <$> texts.
Proof. by rewrite check_cache_probes. Qed.

(** Every phrase is cached: no oracle call. *)
Lemma batch_translate_cached claude self texts :
  to_translate self texts = [] →
  batch_translate claude self texts
  = {| returned := hits_of self texts; after := self;
       trace := probes_of self texts |}.
Proof.
  unfold batch_translate, to_translate. intros Htodo.
  destruct texts as [|t texts]; [done|]. by rewrite Htodo.
Qed.

(** The oracle gave no object. *)
Lemma batch_translate_failed claude self texts :
  to_translate self texts ≠ [] →
  (∀ items, ¬ oracle_object (claude (prompt_of self texts)) items) →
  batch_translate claude self texts
  = {| returned := with_failures (hits_of self texts) (to_translate self texts);
       after := self;
       trace := probes_of self texts ++ [OracleRun (prompt_of self texts)] |}.
Proof.
  unfold batch_translate, to_translate. intros Htodo Hnone.
  destruct texts as [|t texts]; [done|].
  destruct (texts_to_translate _) as [|u todo] eqn:Hu; [done|].
  destruct (claude _) as [rc out| |] eqn:Hrun; [|done|done].
  case_bool_decide as Hrc; [done|].
  assert (rc = 0) as -> by lia.
  destruct (Re.search_object _) as [js|] eqn:Hsearch; [|done].
  destruct (json_loads js) as [items|] eqn:Hloads; [|done].
  exfalso. apply (Hnone items). by exists out, js.
Qed.

Abbreviation stored_of self texts results :=
  (set_batch (cache self)
     (filter (λ kv, kv.1 ∈ to_translate self texts) results)
     (context self) (output_format self)).1.
Abbreviation with_cache self c :=
  {| context := context self; output_format := output_format self;
     max_length := max_length self; cache := c |}.

(** The oracle gave an object: a value that is not a string ends the call
    in the handler before anything is stored; otherwise the entries of the
    to-translate phrases are stored, and the call ends with the flush or,
    when the write raises, in the handler. *)
Lemma batch_translate_decoded claude self texts items :
  to_translate self texts ≠ [] →
  oracle_object (claude (prompt_of self texts)) items →
  batch_translate claude self texts
  = match format_items self items (hits_of self texts) with
    | (results, true) =>
        {| returned := with_failures results (to_translate self texts);
           after := self;
           trace := probes_of self texts ++ [OracleRun (prompt_of self texts)] |}
    | (results, false) =>
        if file_write (_data (stored_of self texts results))
        then
          {| returned := results;
             after := with_cache self (stored_of self texts results);
             trace := (probes_of self texts ++ [OracleRun (prompt_of self texts)])
                      ++ [CacheSave (_data (stored_of self texts results))] |}
        else
          {| returned := with_failures results (to_translate self texts);
             after := with_cache self (stored_of self texts results);
             trace := probes_of self texts ++ [OracleRun (prompt_of self texts)] |}
    end.
Proof.
  unfold batch_translate, to_translate.
  intros Htodo (out & js & Hrun & Hsearch & Hloads).
  destruct texts as [|t texts]; [done|].
  destruct (texts_to_translate _) as [|u todo] eqn:Hu; [done|].
  rewrite Hrun. rewrite bool_decide_eq_false_2 by (intros ?; done).
  rewrite Hsearch, Hloads.
  destruct (format_items _ _ _) as [results []]; [done|].
  unfold set_batch, _save. cbn [fst snd _data].
  by destruct (file_write _).
Qed.

(** The store after a call whatever its end, when the object decoded and
    every value was a string. *)
Lemma batch_translate_decoded_after claude self texts items :
  to_translate self texts ≠ [] →
  oracle_object (claude (prompt_of self texts)) items →
  string_valued items →
  after (batch_translate claude self texts)
  = with_cache self
      (stored_of self texts (format_items self items (hits_of self texts)).1).
Proof.
  intros Htodo Hobj Hstr. rewrite (batch_translate_decoded _ _ _ items) by done.
  pose proof (format_items_completes self items (hits_of self texts) Hstr) as Hok.
  destruct (format_items self items (hits_of self texts)) as [results raised].
  simpl in Hok. subst raised. cbn [fst]. by destruct (file_write _).
Qed.

Lemma oracle_object_dec (r : run_result) :
  (∃ items, oracle_object r items) ∨ (∀ items, ¬ oracle_object r items).
Proof.
  destruct r as [rc out| |].
  - destruct (decide (rc = 0)) as [->|Hrc].
    + destruct (Re.search_object (PyStr.strip out)) as [js|] eqn:Hsearch.
      * destruct (json_loads js) as [items|] eqn:Hloads.
        -- left. exists items, out, js. done.
        -- right. intros items (out' & js' & [= <-] & Hs & Hl). congruence.
      * right. intros items (out' & js' & [= <-] & Hs & Hl). congruence.
    + right. intros items (out' & js' & [= -> _] & _). done.
  - right. intros items (out' & js' & Hr & _). done.
  - right. intros items (out' & js' & Hr & _). done.
Qed.

(** The events of a call: the probes, then, when a phrase is missing, one
    oracle call followed by at most one flush. *)
Lemma batch_translate_trace claude self texts :
  ∃ rest,
    trace (batch_translate claude self texts) = probes_of self texts ++ rest ∧
    ((to_translate self texts = [] ∧ rest = []) ∨
     (to_translate self texts ≠ [] ∧
      ∃ flush, rest = OracleRun (prompt_of self texts) :: flush ∧
               (flush = [] ∨ ∃ data, flush = [CacheSave data]))).
Proof.
  destruct (decide (to_translate self texts = [])) as [Htodo|Htodo].
  { exists []. rewrite batch_translate_cached by done. simpl.
    rewrite app_nil_r. split; [done|by left]. }
  destruct (oracle_object_dec (claude (prompt_of self texts)))
    as [[items Hobj]|Hnone].
  - rewrite (batch_translate_decoded _ _ _ items) by done.
    destruct (format_items _ _ _) as [results []];
      [|destruct (file_write _)]; cbn [trace].
    + exists [OracleRun (prompt_of self texts)]. split; [done|]. right.
      split; [done|]. exists []. split; [done|by left].
    + eexists (OracleRun (prompt_of self texts) :: [CacheSave _]).
      rewrite <-app_assoc. split; [done|]. right. split; [done|].
      eexists. split; [done|]. right. by eexists.
    + exists [OracleRun (prompt_of self texts)]. split; [done|]. right.
      split; [done|]. exists []. split; [done|by left].
  - rewrite batch_translate_failed by done. simpl.
    exists [OracleRun (prompt_of self texts)]. split; [done|]. right.
    split; [done|]. exists []. split; [done|by left].
Qed.

(** C5 (amended). The engine probes the cache once per element of the
    input list, in input order, duplicates included; the to-translate list
    keeps every occurrence of a missed phrase; after the probes comes
    nothing when no phrase is missing, and otherwise exactly one oracle
    call, whose prompt is built from that list. *)
Theorem batch_translate_probes_each_occurrence claude self texts :
  to_translate self texts = filter (λ t, is_hit self t = false) texts ∧
  ∃ rest,
    trace (batch_translate claude self texts)
    = ((λ t, CacheGet (key_of self t)) <$> texts) ++ rest ∧
    (∀ key, CacheGet key ∉ rest) ∧
    (to_translate self texts = [] → rest = []) ∧
    (to_translate self texts ≠ [] →
     ∃ flush, rest = OracleRun (prompt_of self texts) :: flush ∧
              ∀ prompt, OracleRun prompt ∉ flush).
Proof.
  split; [apply to_translate_filter|].
  destruct (batch_translate_trace claude self texts) as (rest & Htrace & Hrest).
  exists rest. rewrite <-probes_of_eq. split; [done|].
  destruct Hrest as [[Htodo ->]|(Htodo & flush & -> & Hflush)].
  - split; [intros key []%elem_of_nil|]. split; [done|]. by intros [].
  - split; [|split; [done|]].
    + intros key [[=]|Hin]%elem_of_cons.
      destruct Hflush as [->|[data ->]]; [by apply elem_of_nil in Hin|].
      by apply list_elem_of_singleton in Hin.
    + intros _. exists flush. split; [done|]. intros prompt Hin.
      destruct Hflush as [->|[data ->]]; [by apply elem_of_nil in Hin|].
      by apply list_elem_of_singleton in Hin.
Qed.

(** C6. When the oracle times out, exits with a non-zero code or prints
    nothing that decodes as a brace-delimited object, the call returns
    (it is a total function): every to-translate phrase maps to the
    failure sentinel, every cache hit to its cached value, nothing else
    is in the result, and the store is as before, without a flush. *)
Theorem batch_translate_oracle_failure claude self texts :
  oracle_failure (claude (prompt_of self texts)) →
  (∀ t, t ∈ to_translate self texts →
        returned (batch_translate claude self texts) !! t
        = Some translation_failed) ∧
  (∀ t, t ∈ texts → is_hit self t = true →
        returned (batch_translate claude self texts) !! t = cached self t) ∧
  (∀ t, t ∉ texts → returned (batch_translate claude self texts) !! t = None) ∧
  after (batch_translate claude self texts) = self ∧
  (∀ data, CacheSave data ∉ trace (batch_translate claude self texts)).
Proof.
  intros Hfail.
  destruct (decide (to_translate self texts = [])) as [Htodo|Htodo].
  - rewrite batch_translate_cached by done. simpl. repeat split.
    + intros t Ht. rewrite Htodo in Ht. by apply elem_of_nil in Ht.
    + intros t Ht Hhit. by apply hits_lookup_hit.
    + intros t Ht. apply hits_lookup_other. by left.
    + intros data. rewrite probes_of_eq.
      by intros (t & [=] & _)%list_elem_of_fmap.
  - rewrite batch_translate_failed; [|done|].
    2: { intros items. by apply oracle_failure_no_object. }
    simpl. repeat split.
    + intros t Ht. by apply with_failures_in.
    + intros t Ht Hhit. rewrite with_failures_notin.
      * by apply hits_lookup_hit.
      * intros [_ Hmiss]%to_translate_elem. congruence.
    + intros t Ht. rewrite with_failures_notin.
      * apply hits_lookup_other. by left.
      * by intros [? _]%to_translate_elem.
    + intros data. rewrite probes_of_eq.
      intros [(t & [=] & _)%list_elem_of_fmap|Hin]%elem_of_app.
      by apply list_elem_of_singleton in Hin.
Qed.

(** C9. A phrase whose cache entry is the empty string fails the test
    [if cached]: it is put on the to-translate list, the call runs the
    oracle, and the prompt it sends holds the phrase, numbered by its
    position in that list. *)
Theorem empty_cached_translation_is_miss claude self texts p :
  cached self p = Some "" → p ∈ texts →
  p ∈ to_translate self texts ∧
  OracleRun (prompt_of self texts) ∈ trace (batch_translate claude self texts) ∧
  ∃ i, to_translate self texts !! i = Some p ∧
       occurs (pretty (Z.of_nat i + 1) +:+ ". " +:+ p) (prompt_of self texts).
Proof.
  intros Hget Hp.
  assert (p ∈ to_translate self texts) as Htodo.
  { apply to_translate_elem. split; [done|]. unfold is_hit. by rewrite Hget. }
  split; [done|]. split.
  - destruct (batch_translate_trace claude self texts)
      as (rest & -> & [[Hnil _]|(_ & flush & -> & _)]).
    + rewrite Hnil in Htodo. by apply elem_of_nil in Htodo.
    + apply elem_of_app. right. by left.
  - apply list_elem_of_lookup in Htodo as [i Hi]. exists i.
    split; [done|]. by apply build_prompt_item.
Qed.







(** A to-translate phrase that the decoded object leaves out has no entry
    in the mapping a call returns after it wrote the cache file. *)
Lemma batch_translate_left_out claude self texts items t :
  oracle_object (claude (prompt_of self texts)) items → string_valued items →
  file_write (_data (cache (after (batch_translate claude self texts)))) = true →
  t ∈ to_translate self texts → t ∉ items.*1 →
  returned (batch_translate claude self texts) !! t = None.
Proof.
  intros Hobj Hstr Hw Ht Hkey.
  assert (to_translate self texts ≠ []) as Htodo.
  { intros Hnil. rewrite Hnil in Ht. by apply elem_of_nil in Ht. }
  rewrite (batch_translate_decoded_after _ _ _ items) in Hw by done.
  rewrite (batch_translate_decoded _ _ _ items) by done.
  pose proof (format_items_completes self items (hits_of self texts) Hstr) as Hok.
  pose proof (format_items_notin self items (hits_of self texts) t Hkey) as Hnotin.
  destruct (format_items self items (hits_of self texts)) as [results raised].
  cbn [fst snd cache] in Hok, Hnotin, Hw. subst raised. rewrite Hw.
  cbn [returned]. rewrite Hnotin.
  apply hits_lookup_other. right. by apply to_translate_elem in Ht as [_ ?].
Qed.

Lemma to_translate_nil self texts :
  (∀ t, t ∈ texts → is_hit self t = true) → to_translate self texts = [].
Proof.
  intros Hall. destruct (to_translate self texts) as [|t todo] eqn:Htodo; [done|].
  assert (t ∈ to_translate self texts) as [Ht Hmiss]%to_translate_elem
    by (rewrite Htodo; by left).
  rewrite (Hall t Ht) in Hmiss. done.
Qed.


(** *** Lengths *)

Lemma fit_length_kept max formatted :
  PyStr.len formatted ≤ max + 10 → fit_length max formatted = formatted.
Proof. intros Hlen. unfold fit_length. by rewrite bool_decide_eq_true_2. Qed.

Lemma fit_length_cut max formatted :
  0 ≤ max → max + 10 < PyStr.len formatted →
  fit_length max formatted = PyStr.take (Z.to_nat max) formatted ∧
  PyStr.len (fit_length max formatted) = max.
Proof.
  intros Hmax Hlen. unfold fit_length, PyStr.slice_to.
  rewrite bool_decide_eq_false_2 by lia.
  destruct (0 <=? max) eqn:Hle; [|lia]. split; [done|].
  unfold PyStr.len in *. rewrite take_chars; lia.
Qed.

Lemma fit_length_bound max formatted :
  0 ≤ max → PyStr.len (fit_length max formatted) ≤ max + 10.
Proof.
  intros Hmax. destruct (decide (PyStr.len formatted ≤ max + 10)) as [Hle|Hgt].
  - by rewrite fit_length_kept.
  - destruct (fit_length_cut max formatted) as [_ ->]; lia.
Qed.



End EngineFacts.

(** ** The engine on concrete calls *)

Import Fixture.

Example first_call_returned :
  returned first_call = {[ "X" := "power-board"; "Z" := "main-unit" ]}.
Proof. vm_compute. reflexivity. Qed.


(** What [translate] makes of a phrase the oracle left out. *)
Example translate_missing_phrase :
  (translate (rt := rt0) claude_a kebab30 "Y").1 = translation_failed.
Proof. vm_compute. reflexivity. Qed.


(** When the cache file cannot be written, the first call on the list of X
    ends in the handler and returns the failure sentinel, although the
    oracle answered; the translation stays in the data of the store, and
    the second call returns it. *)
Example batch_translate_unwritten_then_cached :
  returned (batch_translate (rt := rt_locked) (answers (object_text object_d))
              kebab30 ["X"])
  = {[ "X" := translation_failed ]} ∧
  returned
    (batch_translate (rt := rt_locked) never_answers
       (after (batch_translate (rt := rt_locked) (answers (object_text object_d))
                 kebab30 ["X"]))
       ["X"])
  = {[ "X" := "power-board" ]}.
Proof. split; vm_compute; reflexivity. Qed.


(** C5 (counterexample). On the list that holds the phrase twice, the cache
    is probed twice under the key of the phrase and the prompt sent to the
    oracle lists the phrase twice. *)
Lemma batch_translate_probes_duplicate_twice :
  trace (batch_translate (rt := rt0) (answers (object_text object_b)) kebab30
           ["電源板"; "電源板"])
  = [CacheGet "kebab-case|0|電源板"; CacheGet "kebab-case|0|電源板";
     OracleRun (_build_prompt kebab30 ["電源板"; "電源板"]);
     CacheSave {[ "kebab-case|0|電源板" := "power-board" ]}].
Proof. vm_compute. reflexivity. Qed.

(** C6 (witness). The oracle never answers the call on the list of X. *)
Lemma batch_translate_oracle_failure_witness :
  oracle_failure (rt := rt0)
    (never_answers
       (_build_prompt kebab30 (to_translate (rt := rt0) kebab30 ["X"]))) ∧
  returned (batch_translate (rt := rt0) never_answers kebab30 ["X"]) !! "X"
  = Some translation_failed.
Proof.
  assert (oracle_failure (rt := rt0)
            (never_answers
               (_build_prompt kebab30 (to_translate (rt := rt0) kebab30 ["X"]))))
    as Hfail by apply failure_timeout.
  split; [exact Hfail|].
  apply (proj1 (batch_translate_oracle_failure (rt := rt0) never_answers kebab30
                  ["X"] Hfail)).
  vm_compute. left.
Defined.



(** C9 (witness). The store holds the empty string for X. *)
Lemma empty_cached_translation_is_miss_witness :
  get (rt := rt0) (cache stale) "X" (context stale) (output_format stale) = Some "" ∧
  "X" ∈ ["X"] ∧
  "X" ∈ to_translate (rt := rt0) stale ["X"] ∧
  OracleRun (_build_prompt stale (to_translate (rt := rt0) stale ["X"]))
  ∈ trace (batch_translate (rt := rt0) never_answers stale ["X"]) ∧
  ∃ i, to_translate (rt := rt0) stale ["X"] !! i = Some "X" ∧
       occurs (pretty (Z.of_nat i + 1) +:+ ". " +:+ "X")
         (_build_prompt stale (to_translate (rt := rt0) stale ["X"])).
Proof.
  assert (get (rt := rt0) (cache stale) "X" (context stale) (output_format stale)
          = Some "") as Hget by (vm_compute; reflexivity).
  assert ("X" ∈ ["X"]) as Hin by left.
  split; [exact Hget|]. split; [exact Hin|].
  exact (empty_cached_translation_is_miss (rt := rt0) never_answers stale ["X"] "X"
           Hget Hin).
Defined.



(** * Further properties *)

(** ** Output formatter: edges, lengths and alphabets *)

Section FormatterFacts.
Implicit Types (P Q cls : ascii → bool) (s rep w : string) (c : ascii)
  (ws : list string).

Lemma map_length (f : ascii → ascii) s :
  String.length (PyStr.map f s) = String.length s.
Proof. induction s as [|c s IH]; simpl; [done|]. by rewrite IH. Qed.

Lemma map_app (f : ascii → ascii) s1 s2 :
  PyStr.map f (s1 +:+ s2) = PyStr.map f s1 +:+ PyStr.map f s2.
Proof. induction s1 as [|c s1 IH]; [done|]. rewrite !app_cons. simpl. by rewrite IH. Qed.

Lemma lstrip_length s : (String.length (PyStr.lstrip s) ≤ String.length s)%nat.
Proof. induction s as [|c s IH]; simpl; [done|]. destruct (PyStr.is_space c); simpl; lia. Qed.

Lemma rstrip_length s : (String.length (PyStr.rstrip s) ≤ String.length s)%nat.
Proof.
  induction s as [|c s IH]; simpl; [done|].
  destruct (PyStr.rstrip s); [destruct (PyStr.is_space c)|]; simpl in *; lia.
Qed.

Lemma strip_length s : (String.length (PyStr.strip s) ≤ String.length s)%nat.
Proof.
  unfold PyStr.strip. pose proof (rstrip_length (PyStr.lstrip s)).
  pose proof (lstrip_length s). lia.
Qed.

Lemma remove_length cls s :
  (String.length (Re.remove cls s) ≤ String.length s)%nat.
Proof. induction s as [|c s IH]; simpl; [done|]. destruct (cls c); simpl; lia. Qed.

Lemma sub_go_length cls rep b s :
  (String.length rep ≤ 1)%nat →
  (String.length (Re.sub_go cls rep b s) ≤ String.length s)%nat.
Proof.
  intros Hrep. revert b. induction s as [|c s IH]; intros b; simpl; [done|].
  destruct (cls c).
  - destruct b.
    + specialize (IH true). lia.
    + rewrite string_length_app. specialize (IH true). lia.
  - simpl. specialize (IH false). lia.
Qed.

Lemma clean_length s : (String.length (clean s) ≤ String.length s)%nat.
Proof.
  unfold clean, Re.sub, PyStr.lower.
  pose proof (sub_go_length ws " " false
                (Re.remove PyStr.is_quote (PyStr.map PyStr.lower_char (PyStr.strip s)))
                ltac:(simpl; lia)).
  pose proof (remove_length PyStr.is_quote (PyStr.map PyStr.lower_char (PyStr.strip s))).
  rewrite map_length in *. pose proof (strip_length s). lia.
Qed.

Lemma split_go_nonempty cls b s : Re.split_go cls b s ≠ [].
Proof.
  revert b. induction s as [|c s IH]; intros b; simpl; [done|].
  destruct (cls c); [destruct b; [apply IH|done]|].
  by destruct (Re.split_go cls false s).
Qed.

Lemma concat_cons w ws : PyStr.concat (w :: ws) = w +:+ PyStr.concat ws.
Proof. reflexivity. Qed.

(** Joining the pieces of a split gives the text without its runs. *)
Lemma concat_split_go cls b s :
  PyStr.concat (Re.split_go cls b s) = Re.sub_go cls "" b s.
Proof.
  revert b. induction s as [|c s IH]; intros b; simpl; [done|].
  destruct (cls c).
  - destruct b; [apply IH|]. rewrite concat_cons, !app_empty_l. apply IH.
  - specialize (IH false). pose proof (split_go_nonempty cls false s).
    destruct (Re.split_go cls false s) as [|w ws]; [done|].
    rewrite concat_cons in *. rewrite app_cons. by rewrite IH.
Qed.

Lemma capitalize_length w : String.length (PyStr.capitalize w) = String.length w.
Proof. destruct w as [|c w]; simpl; [done|]. unfold PyStr.lower. by rewrite map_length. Qed.

Lemma concat_capitalize_length ws :
  String.length (PyStr.concat (PyStr.capitalize <$> ws))
  = String.length (PyStr.concat ws).
Proof.
  induction ws as [|w ws IH]; [done|].
  rewrite fmap_cons, !concat_cons, !string_length_app, capitalize_length. lia.
Qed.

Lemma strip_spaces s :
  PyStr.all PyStr.is_space s = true → PyStr.strip s = "".
Proof.
  intros Hs. unfold PyStr.strip.
  assert (PyStr.lstrip s = "") as ->; [|done].
  induction s as [|c s IH]; simpl in *; [done|].
  apply andb_prop in Hs as [-> Hs]. by apply IH.
Qed.

(** X1. Under every format name, one of the six or not, a text made of
    white space only (the empty text included) is formatted to the empty
    text. *)
Theorem format_output_blank (F s : string) :
  PyStr.all PyStr.is_space s = true → _format_output F s = "".
Proof.
  intros Hs. unfold _format_output, clean. rewrite (strip_spaces s Hs).
  repeat case_bool_decide; reflexivity.
Qed.

(** X1 (witness). A tab, a space and a line feed. *)
Lemma format_output_blank_witness :
  PyStr.all PyStr.is_space (String "009" (String " " (String "010" ""))) = true ∧
  _format_output "PascalCase" (String "009" (String " " (String "010" ""))) = "".
Proof.
  assert (PyStr.all PyStr.is_space (String "009" (String " " (String "010" "")))
          = true) as Hs by reflexivity.
  split; [exact Hs|].
  exact (format_output_blank "PascalCase" _ Hs).
Defined.

(** In bytes, the formatted text is at most as long as the raw text. *)
Lemma format_output_bytes (F s : string) :
  (String.length (_format_output F s) ≤ String.length s)%nat.
Proof.
  pose proof (clean_length s) as Hclean.
  pose proof (λ cls rep H, sub_go_length cls rep false (clean s) H) as Hsub.
  unfold _format_output. repeat case_bool_decide.
  - specialize (Hsub ws_underscore "-" ltac:(simpl; lia)). unfold Re.sub. lia.
  - specialize (Hsub ws_hyphen "_" ltac:(simpl; lia)). unfold Re.sub. lia.
  - specialize (Hsub ws_underscore_hyphen "" ltac:(simpl; lia)).
    rewrite <-concat_split_go in Hsub. unfold Re.split.
    destruct (Re.split_go ws_underscore_hyphen false (clean s)) as [|w words]; [simpl; lia|].
    rewrite concat_cons in Hsub. rewrite string_length_app in *.
    rewrite concat_capitalize_length. lia.
  - specialize (Hsub ws_underscore_hyphen "" ltac:(simpl; lia)).
    rewrite <-concat_split_go in Hsub. unfold Re.split.
    rewrite concat_capitalize_length. lia.
  - specialize (Hsub ws_underscore_hyphen "" ltac:(simpl; lia)). unfold Re.sub. lia.
  - specialize (Hsub ws_underscore_hyphen "_" ltac:(simpl; lia)).
    unfold Re.sub, PyStr.upper. rewrite map_length. lia.
  - done.
Qed.

(** X2. Under every format name the formatted text of an ASCII text has at
    most as many characters as the raw text. *)
Theorem format_output_length (F s : string) :
  ascii_text s → PyStr.len (_format_output F s) ≤ PyStr.len s.
Proof.
  intros Hs. unfold PyStr.len. apply inj_le. rewrite (chars_ascii s Hs).
  etrans; [apply chars_le_length|apply format_output_bytes].
Qed.

(** X2 (witness). A quoted phrase with doubled spaces. *)
Lemma format_output_length_witness :
  ascii_text " 'Main'  Power_Board " ∧
  PyStr.len (_format_output "camelCase" " 'Main'  Power_Board ")
  ≤ PyStr.len " 'Main'  Power_Board ".
Proof.
  assert (ascii_text " 'Main'  Power_Board ") as Hs by reflexivity.
  split; [exact Hs|].
  exact (format_output_length "camelCase" " 'Main'  Power_Board " Hs).
Defined.

Lemma split_go_all P Q cls b s :
  (∀ c, Q c = true → cls c = false → P c = true) →
  PyStr.all Q s = true →
  Forall (λ w, PyStr.all P w = true) (Re.split_go cls b s).
Proof.
  intros HP. revert b. induction s as [|c s IH]; intros b; simpl.
  { intros _. by repeat constructor. }
  intros [Hc Hs]%andb_prop. destruct (cls c) eqn:Hcls.
  - destruct b; [by apply IH|]. constructor; [done|by apply IH].
  - specialize (IH false Hs).
    destruct (Re.split_go cls false s) as [|w words].
    + repeat constructor. simpl. by rewrite (HP c Hc Hcls).
    + apply Forall_cons in IH as [Hw Hwords]. constructor; [|done].
      simpl. by rewrite (HP c Hc Hcls), Hw.
Qed.

Lemma split_go_fixed cls s :
  PyStr.all (λ c, negb (cls c)) s = true → Re.split_go cls false s = [s].
Proof.
  induction s as [|c s IH]; simpl; [done|].
  intros [Hc Hs]%andb_prop. apply negb_true_iff in Hc as ->. by rewrite IH.
Qed.

Lemma capitalize_all P Q w :
  (∀ c, Q c = true → P (PyStr.upper_char c) = true) →
  (∀ c, Q c = true → P (PyStr.lower_char c) = true) →
  PyStr.all Q w = true → PyStr.all P (PyStr.capitalize w) = true.
Proof.
  intros Hup Hlow. destruct w as [|c w]; simpl; [done|].
  intros [Hc Hw]%andb_prop. rewrite (Hup c Hc). simpl.
  by apply (all_map P Q).
Qed.

Lemma concat_all P ws :
  Forall (λ w, PyStr.all P w = true) ws → PyStr.all P (PyStr.concat ws) = true.
Proof.
  induction 1 as [|w ws Hw _ IH]; [done|].
  by rewrite concat_cons, all_app, Hw, IH.
Qed.

Lemma concat_capitalize_all P Q ws :
  (∀ c, Q c = true → P (PyStr.upper_char c) = true) →
  (∀ c, Q c = true → P (PyStr.lower_char c) = true) →
  Forall (λ w, PyStr.all Q w = true) ws →
  PyStr.all P (PyStr.concat (PyStr.capitalize <$> ws)) = true.
Proof.
  intros Hup Hlow Hws. apply concat_all. apply Forall_fmap.
  eapply Forall_impl; [exact Hws|]. intros w Hw. simpl.
  by apply (capitalize_all P Q).
Qed.

Lemma split_clean_words s :
  Forall (λ w, PyStr.all word_char w = true)
         (Re.split ws_underscore_hyphen (clean s)).
Proof.
  apply (split_go_all word_char cleaned); [|apply clean_all].
  intros c Hc Hn. unfold word_char. by rewrite Hc, Hn.
Qed.

Lemma format_lowercase_classes s :
  PyStr.all (λ c, cleaned c && negb (ws_underscore_hyphen c))
    (_format_output "lowercase" s) = true.
Proof.
  apply (sub_go_all _ cleaned); [|done|apply clean_all].
  intros c Hc Hn. by rewrite Hc, Hn.
Qed.

Lemma format_camelCase_classes s :
  PyStr.all (λ c, negb (PyStr.is_quote c) && negb (ws_underscore_hyphen c))
    (_format_output "camelCase" s) = true.
Proof.
  pose proof (split_clean_words s) as Hwords.
  change (_format_output "camelCase" s)
    with (match Re.split ws_underscore_hyphen (clean s) with
          | w :: words => w +:+ PyStr.concat (PyStr.capitalize <$> words)
          | [] => ""
          end).
  destruct (Re.split ws_underscore_hyphen (clean s)) as [|w words]; [done|].
  apply Forall_cons in Hwords as [Hw Hwords]. rewrite all_app. apply andb_true_intro.
  split.
  - revert Hw. apply all_impl. clear. each_char.
  - apply (concat_capitalize_all _ word_char); [clear; each_char..|done].
Qed.

(** X3. What the six formats never put out: no white space and no quote at
    all; no underscore and no upper-case letter in kebab-case; no hyphen and
    no upper-case letter in snake_case; no underscore, hyphen or upper-case
    letter in lowercase; no hyphen and no lower-case letter in UPPERCASE; no
    underscore and no hyphen in camelCase and PascalCase. *)
Theorem format_output_alphabet (s : string) :
  PyStr.all (λ c, cleaned c && negb (ws_underscore c))
    (_format_output "kebab-case" s) = true ∧
  PyStr.all (λ c, cleaned c && negb (ws_hyphen c))
    (_format_output "snake_case" s) = true ∧
  PyStr.all (λ c, cleaned c && negb (ws_underscore_hyphen c))
    (_format_output "lowercase" s) = true ∧
  PyStr.all (λ c, negb (PyStr.is_quote c) && negb (ws_hyphen c)
                  && bool_decide (PyStr.upper_char c = c))
    (_format_output "UPPERCASE" s) = true ∧
  PyStr.all (λ c, negb (PyStr.is_quote c) && negb (ws_underscore_hyphen c))
    (_format_output "camelCase" s) = true ∧
  PyStr.all (λ c, negb (PyStr.is_quote c) && negb (ws_underscore_hyphen c))
    (_format_output "PascalCase" s) = true.
Proof.
  assert (∀ cls rep,
            PyStr.all (λ c, cleaned c && negb (cls c)) rep = true →
            PyStr.all (λ c, cleaned c && negb (cls c)) (Re.sub cls rep (clean s))
            = true) as Hsub.
  { intros cls rep Hrep. apply (sub_go_all _ cleaned); [|done|apply clean_all].
    intros c Hc Hn. by rewrite Hc, Hn. }
  pose proof (split_clean_words s) as Hwords.
  split; [by apply (Hsub ws_underscore "-")|].
  split; [by apply (Hsub ws_hyphen "_")|].
  split; [apply format_lowercase_classes|].
  split; [|split].
  - change (_format_output "UPPERCASE" s)
      with (PyStr.upper (Re.sub ws_underscore_hyphen "_" (clean s))).
    apply (all_map _ (λ c, cleaned c && negb (ws_hyphen c))); [clear; each_char|].
    apply (sub_go_all _ cleaned); [|done|apply clean_all].
    intros c Hc. unfold ws_underscore_hyphen, ws_hyphen.
    intros [[-> _]%orb_false_elim ->]%orb_false_elim. by rewrite Hc.
  - apply format_camelCase_classes.
  - change (_format_output "PascalCase" s)
      with (PyStr.concat (PyStr.capitalize <$> Re.split ws_underscore_hyphen (clean s))).
    apply (concat_capitalize_all _ word_char); [clear; each_char..|done].
Qed.

Lemma lower_capitalize_word w :
  PyStr.all word_char w = true → PyStr.lower (PyStr.capitalize w) = w.
Proof.
  destruct w as [|c w]; simpl; [done|]. intros [Hc Hw]%andb_prop.
  unfold PyStr.lower. simpl. f_equal.
  - revert c Hc. clear. each_char.
  - rewrite (map_fixed word_char PyStr.lower_char w); [|clear; each_char|done].
    revert Hw. apply map_fixed. clear. each_char.
Qed.

Lemma lower_concat_capitalize ws :
  Forall (λ w, PyStr.all word_char w = true) ws →
  PyStr.lower (PyStr.concat (PyStr.capitalize <$> ws)) = PyStr.concat ws.
Proof.
  induction 1 as [|w ws Hw _ IH]; [done|].
  rewrite fmap_cons, !concat_cons. unfold PyStr.lower in *.
  rewrite map_app, IH. f_equal. by apply lower_capitalize_word.
Qed.

(** X4. On ASCII text, where the case mapping of the model is that of
    [str.lower] and [str.capitalize]: lower-casing the camelCase output
    gives the lowercase output, and so does formatting the camelCase output
    in camelCase again. *)
Theorem format_output_camelCase_twice (s : string) :
  ascii_text s →
  PyStr.lower (_format_output "camelCase" s) = _format_output "lowercase" s ∧
  _format_output "camelCase" (_format_output "camelCase" s)
  = _format_output "lowercase" s.
Proof.
  intros _.
  assert (PyStr.lower (_format_output "camelCase" s) = _format_output "lowercase" s)
    as Hlower.
  { change (_format_output "lowercase" s)
      with (Re.sub_go ws_underscore_hyphen "" false (clean s)).
    rewrite <-concat_split_go.
    change (_format_output "camelCase" s)
      with (match Re.split ws_underscore_hyphen (clean s) with
            | w :: words => w +:+ PyStr.concat (PyStr.capitalize <$> words)
            | [] => ""
            end).
    pose proof (split_clean_words s) as Hwords. unfold Re.split in *.
    destruct (Re.split_go ws_underscore_hyphen false (clean s)) as [|w words]; [done|].
    apply Forall_cons in Hwords as [Hw Hwords].
    rewrite concat_cons. unfold PyStr.lower. rewrite map_app.
    fold (PyStr.lower (PyStr.concat (PyStr.capitalize <$> words))).
    rewrite lower_concat_capitalize by done. f_equal.
    revert Hw. apply map_fixed. clear. each_char. }
  split; [done|].
  pose proof (format_lowercase_classes s) as Hlow.
  pose proof (format_camelCase_classes s) as Hcamel.
  set (y := _format_output "camelCase" s) in *.
  assert (clean y = _format_output "lowercase" s) as Hclean.
  { unfold clean, Re.sub.
    rewrite strip_fixed by (revert Hcamel; apply all_impl; clear; each_char).
    rewrite Hlower.
    rewrite remove_fixed by (revert Hlow; apply all_impl; clear; each_char).
    apply sub_go_fixed. revert Hlow. apply all_impl. clear. each_char. }
  change (_format_output "camelCase" y)
    with (match Re.split ws_underscore_hyphen (clean y) with
          | w :: words => w +:+ PyStr.concat (PyStr.capitalize <$> words)
          | [] => ""
          end).
  rewrite Hclean. unfold Re.split. rewrite split_go_fixed.
  - simpl. apply app_empty_r.
  - revert Hlow. apply all_impl. clear. each_char.
Qed.

Lemma upper_first_concat_capitalize ws :
  upper_first (PyStr.concat (PyStr.capitalize <$> ws))
  = PyStr.concat (PyStr.capitalize <$> ws).
Proof.
  induction ws as [|[|c w] ws IH]; [done|exact IH|].
  rewrite fmap_cons, concat_cons. simpl. rewrite app_cons. simpl. f_equal.
  clear. revert c. each_char.
Qed.

(** X5. On ASCII text, where the case mapping of the model is that of
    [str.capitalize]: the PascalCase output is the camelCase output with
    its first character in upper case. *)
Theorem format_output_PascalCase_camelCase (s : string) :
  ascii_text s →
  _format_output "PascalCase" s = upper_first (_format_output "camelCase" s).
Proof.
  intros _.
  change (_format_output "PascalCase" s)
    with (PyStr.concat (PyStr.capitalize <$> Re.split ws_underscore_hyphen (clean s))).
  change (_format_output "camelCase" s)
    with (match Re.split ws_underscore_hyphen (clean s) with
          | w :: words => w +:+ PyStr.concat (PyStr.capitalize <$> words)
          | [] => ""
          end).
  pose proof (split_clean_words s) as Hwords.
  destruct (Re.split ws_underscore_hyphen (clean s)) as [|[|c w] words]; [done| |].
  - rewrite fmap_cons, concat_cons, !app_empty_l.
    by rewrite upper_first_concat_capitalize.
  - apply Forall_cons in Hwords as [[Hc Hw]%andb_prop _].
    rewrite fmap_cons, concat_cons. simpl. rewrite !app_cons. simpl. f_equal.
    f_equal. revert Hw. apply map_fixed. clear. each_char.
Qed.

End FormatterFacts.

(** X4 (witness). A phrase of three words. *)
Lemma format_output_camelCase_twice_witness :
  ascii_text "Main Power_Board" ∧
  _format_output "camelCase" (_format_output "camelCase" "Main Power_Board")
  = _format_output "lowercase" "Main Power_Board".
Proof.
  assert (ascii_text "Main Power_Board") as Hs by reflexivity.
  split; [exact Hs|].
  exact (proj2 (format_output_camelCase_twice "Main Power_Board" Hs)).
Defined.

(** X5 (witness). A phrase that starts with a separator. *)
Lemma format_output_PascalCase_camelCase_witness :
  ascii_text "_power board" ∧
  _format_output "PascalCase" "_power board"
  = upper_first (_format_output "camelCase" "_power board").
Proof.
  assert (ascii_text "_power board") as Hs by reflexivity.
  split; [exact Hs|].
  exact (format_output_PascalCase_camelCase "_power board" Hs).
Defined.

(** ** Cache store: key identity, round trips and the batch path *)

Lemma pipe_split (a1 a2 r1 r2 : string) :
  pipe_free a1 → pipe_free a2 →
  a1 +:+ "|" +:+ r1 = a2 +:+ "|" +:+ r2 → a1 = a2 ∧ r1 = r2.
Proof.
  unfold pipe_free. revert a2.
  induction a1 as [|c a1 IH]; intros [|d a2] H1 H2 Heq;
    cbn [PyStr.all] in H1, H2;
    repeat (rewrite app_empty_l in Heq || rewrite app_cons in Heq).
  - by injection Heq as ->.
  - injection Heq as <- _. by apply andb_prop in H2 as [? _].
  - injection Heq as -> _. by apply andb_prop in H1 as [? _].
  - injection Heq as -> Heq.
    apply andb_prop in H1 as [_ H1]. apply andb_prop in H2 as [_ H2].
    destruct (IH a2 H1 H2 Heq) as [-> ->]. done.
Qed.

Lemma pretty_N_go_pipe_free (x : N) (s : string) :
  pipe_free s → pipe_free (pretty_N_go x s).
Proof.
  revert s. induction (N.lt_wf_0 x) as [x _ IH]; intros s Hs.
  assert (x = 0 ∨ 0 < x)%N as [->|?] by lia.
  - by rewrite pretty_N_go_0.
  - rewrite pretty_N_go_step by done. apply IH.
    { by apply N.div_lt. }
    unfold pipe_free in *. simpl. rewrite Hs.
    unfold pretty_N_char. by repeat case_match.
Qed.

Lemma pretty_Z_pipe_free (z : Z) : pipe_free (pretty z).
Proof.
  destruct z as [|p|p]; [done| |].
  - unfold pretty, pretty_Z, pretty, pretty_positive, pretty, pretty_N.
    case_decide; [done|]. by apply pretty_N_go_pipe_free.
  - unfold pretty, pretty_Z. unfold pipe_free. rewrite all_app. simpl.
    unfold pretty, pretty_positive, pretty, pretty_N.
    case_decide; [done|]. by apply pretty_N_go_pipe_free.
Qed.

Section CacheStoreIdentity.
Context {rt : PyRuntime}.
Implicit Types (self : TranslationCache) (ctx : option string).

Lemma make_key_eq t1 t2 c1 c2 f1 f2 :
  pipe_free f1 → pipe_free f2 →
  _make_key t1 c1 f1 = _make_key t2 c2 f2 →
  f1 = f2 ∧ bucket c1 = bucket c2 ∧ t1 = t2.
Proof.
  intros H1 H2 Heq. unfold _make_key in Heq. fold (bucket c1) (bucket c2) in Heq.
  apply pipe_split in Heq as [-> Heq]; [|done..].
  apply pipe_split in Heq as [Hb ->]; [|apply pretty_Z_pipe_free..].
  by apply (inj pretty) in Hb.
Qed.

(** X6. For format names without a vertical bar (the six formats are such)
    two cache keys are equal exactly when the formats, the hash buckets of
    the contexts and the phrases are equal; a bar inside the phrase does no
    harm. *)
Theorem make_key_identity t1 t2 c1 c2 f1 f2 :
  pipe_free f1 → pipe_free f2 →
  _make_key t1 c1 f1 = _make_key t2 c2 f2
  ↔ f1 = f2 ∧ bucket c1 = bucket c2 ∧ t1 = t2.
Proof.
  intros H1 H2. split; [by apply make_key_eq|].
  intros (-> & Hb & ->). unfold _make_key. fold (bucket c1) (bucket c2).
  by rewrite Hb.
Qed.

(** X7. Cache round trip and frame: after [set] of a phrase, [get] under
    the same context and format returns the new translation for that
    phrase and what it returned before for every other phrase. *)
Theorem get_set_frame self t t' ctx f translation :
  get (set self t ctx f translation).1 t' ctx f
  = if decide (t' = t) then Some translation else get self t' ctx f.
Proof.
  unfold get, set. cbn [fst _data]. destruct (decide (t' = t)) as [->|Hne].
  - apply lookup_insert_eq.
  - apply lookup_insert_ne. intros Heq. by apply make_key_text_inj in Heq.
Qed.

(** X8. Format isolation: for two different format names without a
    vertical bar, [set] under one leaves every lookup under the other as it
    was, whatever the phrases and contexts. *)
Theorem get_set_other_format self t1 t2 c1 c2 f1 f2 translation :
  pipe_free f1 → pipe_free f2 → f1 ≠ f2 →
  get (set self t1 c1 f1 translation).1 t2 c2 f2 = get self t2 c2 f2.
Proof.
  intros H1 H2 Hne. unfold get, set. cbn [fst _data].
  apply lookup_insert_ne. intros Heq. by apply make_key_eq in Heq as [? _].
Qed.

(** X9. The batch path stores what the single path would store, item by
    item, but flushes once: the data after [set_batch] is the data after
    one [set] per item, and a call that completes has one event, the flush
    of that data; the call raises exactly when the write of that data
    does. *)
Theorem set_batch_as_sets self (translations : gmap string string) ctx f :
  _data (set_batch self translations ctx f).1
  = _data (foldr (λ kv acc, (set acc kv.1 ctx f kv.2).1) self
             (map_to_list translations)) ∧
  (set_batch self translations ctx f).2
  = if file_write (_data (set_batch self translations ctx f).1)
    then Returns [CacheSave (_data (set_batch self translations ctx f).1)]
    else Raises.
Proof.
  split; [|apply set_batch_saved]. unfold set_batch. cbn [fst _data]. rewrite map_fold_foldr.
  induction (map_to_list translations) as [|[t v] l IH]; [done|].
  simpl. by rewrite IH.
Qed.

(** X10. [set_batch] writes exactly the keys of its phrases: under the
    same context and format a phrase of the batch reads its new
    translation and any other phrase reads as before, and a key that is
    the key of no phrase of the batch keeps its value. *)
Theorem set_batch_writes self (translations : gmap string string) ctx f :
  (∀ t, get (set_batch self translations ctx f).1 t ctx f
        = match translations !! t with
          | Some translation => Some translation
          | None => get self t ctx f
          end) ∧
  (∀ key, (∀ t, is_Some (translations !! t) → _make_key t ctx f ≠ key) →
          _data (set_batch self translations ctx f).1 !! key = _data self !! key).
Proof. split; [apply set_batch_get|apply set_batch_other]. Qed.

End CacheStoreIdentity.

(** X6 (witness). The keys of one phrase under kebab-case and snake_case. *)
Lemma make_key_identity_witness :
  pipe_free "kebab-case" ∧ pipe_free "snake_case" ∧
  (_make_key (rt := Fixture.rt0) "a|b" None "kebab-case"
   = _make_key (rt := Fixture.rt0) "a|b" None "snake_case"
   ↔ "kebab-case" = "snake_case"
     ∧ bucket (rt := Fixture.rt0) None = bucket (rt := Fixture.rt0) None
     ∧ "a|b" = "a|b").
Proof.
  assert (pipe_free "kebab-case") as H1 by reflexivity.
  assert (pipe_free "snake_case") as H2 by reflexivity.
  split; [exact H1|]. split; [exact H2|].
  exact (make_key_identity (rt := Fixture.rt0) "a|b" "a|b" None None
           "kebab-case" "snake_case" H1 H2).
Defined.

(** A format name with a vertical bar can share its keys with another. *)
Example make_key_bar_in_format :
  _make_key (rt := Fixture.rt0) "0|x" None "a"
  = _make_key (rt := Fixture.rt0) "x" None "a|0".
Proof. vm_compute. reflexivity. Qed.

(** X8 (witness). A translation stored under kebab-case is not seen under
    snake_case. *)
Lemma get_set_other_format_witness :
  pipe_free "kebab-case" ∧ pipe_free "snake_case" ∧ "kebab-case" ≠ "snake_case" ∧
  get (rt := Fixture.rt0)
      (set (rt := Fixture.rt0) {| _data := ∅ |} "p" None "kebab-case" "x").1
      "p" None "snake_case"
  = get (rt := Fixture.rt0) {| _data := ∅ |} "p" None "snake_case".
Proof.
  assert (pipe_free "kebab-case") as H1 by reflexivity.
  assert (pipe_free "snake_case") as H2 by reflexivity.
  assert ("kebab-case" ≠ "snake_case") as Hne by discriminate.
  split; [exact H1|]. split; [exact H2|]. split; [exact Hne|].
  exact (get_set_other_format (rt := Fixture.rt0) {| _data := ∅ |} "p" "p" None None
           "kebab-case" "snake_case" "x" H1 H2 Hne).
Defined.

(** ** The length rule *)

(** X11. Whatever [max_length] is, negative included, the length rule
    returns a prefix of the formatted text: it never changes a character. *)
Theorem fit_length_prefix (max : Z) (formatted : string) :
  prefix_of (fit_length max formatted) formatted.
Proof.
  unfold fit_length, PyStr.slice_to. case_bool_decide.
  - exists "". clear. induction formatted as [|c s IH]; [done|].
    by rewrite app_cons, <-IH.
  - destruct (0 <=? max); apply take_prefix.
Qed.

(** X12. For a non-negative [max_length] the length rule is idempotent:
    what it returns passes it unchanged. *)
Theorem fit_length_idempotent (max : Z) (formatted : string) :
  0 ≤ max →
  fit_length max (fit_length max formatted) = fit_length max formatted.
Proof.
  intros Hmax. apply fit_length_kept. by apply fit_length_bound.
Qed.

(** X12 (witness). The long name of the examples under [max_length = 30]. *)
Lemma fit_length_idempotent_witness :
  0 ≤ 30 ∧
  fit_length 30 (fit_length 30 Fixture.long_name) = fit_length 30 Fixture.long_name.
Proof.
  assert (0 ≤ 30) as Hmax by (vm_compute; discriminate).
  split; [exact Hmax|].
  exact (fit_length_idempotent 30 Fixture.long_name Hmax).
Defined.

(** ** Batch translation engine: short circuit, write-through, exceptions *)

Section EngineInvariants.
Context {rt : PyRuntime}.
Implicit Types (self : Translator) (texts todo : list string)
  (items : list (string * json_value)) (results : gmap string string)
  (claude : string → run_result).

Abbreviation key_of self text :=
  (_make_key text (context self) (output_format self)).
Abbreviation cached self text :=
  (get (cache self) text (context self) (output_format self)).
Abbreviation hits_of self texts := (hits (check_cache self texts probe_init)).
Abbreviation probes_of self texts := (probes (check_cache self texts probe_init)).
Abbreviation prompt_of self texts := (_build_prompt self (to_translate self texts)).
Abbreviation stored_of self texts results :=
  (set_batch (cache self)
     (filter (λ kv, kv.1 ∈ to_translate self texts) results)
     (context self) (output_format self)).1.
Abbreviation with_cache self c :=
  {| context := context self; output_format := output_format self;
     max_length := max_length self; cache := c |}.

(** X13. Cache short circuit: when every phrase of the list has a
    non-empty cache entry, the call only probes the cache (no oracle call,
    no flush), leaves the translator as it is and returns exactly the
    cached value of each phrase of the list. *)
Theorem batch_translate_all_cached claude self texts :
  (∀ t, t ∈ texts → is_hit self t = true) →
  trace (batch_translate claude self texts)
  = ((λ t, CacheGet (key_of self t)) <$> texts) ∧
  after (batch_translate claude self texts) = self ∧
  (∀ t, returned (batch_translate claude self texts) !! t
        = if decide (t ∈ texts) then cached self t else None).
Proof.
  intros Hall. rewrite batch_translate_cached by (by apply to_translate_nil).
  cbn [trace after returned]. split; [apply probes_of_eq|]. split; [done|].
  intros t. destruct (decide (t ∈ texts)) as [Ht|Ht].
  - apply hits_lookup_hit; auto.
  - apply hits_lookup_other. by left.
Qed.

Lemma set_batch_keeps (c : TranslationCache) (translations : gmap string string)
    ctx f key :
  is_Some (_data c !! key) →
  is_Some (_data (set_batch c translations ctx f).1 !! key).
Proof.
  intros Hkey. unfold set_batch. cbn [fst _data].
  apply (map_fold_weak_ind (λ data (m : gmap string string),
           is_Some (data !! key))); [done|].
  intros text v m data _ IH. rewrite lookup_insert. by case_decide.
Qed.

(** The ways a call ends: served from the cache; in a handler before
    anything is stored; with the flush; in the handler of a write that
    raised. *)
Lemma batch_translate_cases claude self texts :
  (batch_translate claude self texts
   = {| returned := hits_of self texts; after := self;
        trace := probes_of self texts |}) ∨
  (∃ results,
     batch_translate claude self texts
     = {| returned := with_failures results (to_translate self texts);
          after := self;
          trace := probes_of self texts ++ [OracleRun (prompt_of self texts)] |}) ∨
  (∃ results,
     file_write (_data (stored_of self texts results)) = true ∧
     batch_translate claude self texts
     = {| returned := results;
          after := with_cache self (stored_of self texts results);
          trace := (probes_of self texts ++ [OracleRun (prompt_of self texts)])
                   ++ [CacheSave (_data (stored_of self texts results))] |}) ∨
  (∃ results,
     file_write (_data (stored_of self texts results)) = false ∧
     batch_translate claude self texts
     = {| returned := with_failures results (to_translate self texts);
          after := with_cache self (stored_of self texts results);
          trace := probes_of self texts ++ [OracleRun (prompt_of self texts)] |}).
Proof.
  destruct (decide (to_translate self texts = [])) as [Htodo|Htodo].
  { left. by apply batch_translate_cached. }
  right.
  destruct (oracle_object_dec (claude (prompt_of self texts)))
    as [[items Hobj]|Hnone].
  - rewrite (batch_translate_decoded _ _ _ items) by done.
    destruct (format_items self items (hits_of self texts)) as [results []].
    + left. by exists results.
    + right. destruct (file_write _) eqn:Hw.
      * left. by exists results.
      * right. by exists results.
  - left. exists (hits_of self texts). by apply batch_translate_failed.
Qed.

(** X14. Write-through: a call flushes at most once, and what it flushes
    is the data of the store it leaves, written to the file; when it
    leaves a store whose data differ from the data it found, either it
    flushed them or the write raised, and then every to-translate phrase
    maps to the failure sentinel. *)
Theorem batch_translate_write_through claude self texts :
  (∀ data, CacheSave data ∈ trace (batch_translate claude self texts) →
           data = _data (cache (after (batch_translate claude self texts))) ∧
           file_write data = true) ∧
  (_data (cache (after (batch_translate claude self texts))) ≠ _data (cache self) →
   CacheSave (_data (cache (after (batch_translate claude self texts))))
   ∈ trace (batch_translate claude self texts) ∨
   (file_write (_data (cache (after (batch_translate claude self texts)))) = false ∧
    ∀ t, t ∈ to_translate self texts →
      returned (batch_translate claude self texts) !! t = Some translation_failed)) ∧
  (length (filter (λ e, is_flush e = true)
             (trace (batch_translate claude self texts))) ≤ 1)%nat.
Proof.
  assert (∀ l : list event, (∀ data, CacheSave data ∉ l) →
            filter (λ e, is_flush e = true) l = []) as Hnone.
  { intros l Hl. induction l as [|e l IH]; [done|].
    rewrite filter_cons_False.
    - apply IH. intros data Hin. apply (Hl data). by right.
    - destruct e as [k|data|q]; simpl; [done| |done].
      intros _. apply (Hl data). by left. }
  assert (∀ data, CacheSave data ∉ probes_of self texts) as Hprobes.
  { intros data. rewrite probes_of_eq. by intros (t & [=] & _)%list_elem_of_fmap. }
  assert (∀ data, CacheSave data
                  ∉ probes_of self texts ++ [OracleRun (prompt_of self texts)])
    as Hrun.
  { intros data [Hin|Hin%list_elem_of_singleton]%elem_of_app; [|done].
    by apply (Hprobes data). }
  destruct (batch_translate_cases claude self texts)
    as [->|[[results ->]|[(results & Hw & ->)|(results & Hw & ->)]]];
    cbn [trace after cache returned].
  - split; [|split]; [by intros data Hin%Hprobes|done|].
    rewrite (Hnone _ Hprobes). simpl. lia.
  - split; [|split]; [by intros data Hin%Hrun|done|].
    rewrite (Hnone _ Hrun). simpl. lia.
  - split; [|split].
    + intros data [Hin%Hrun|Hin%list_elem_of_singleton]%elem_of_app; [done|].
      by injection Hin as ->.
    + intros _. left. apply elem_of_app. right. by left.
    + rewrite filter_app, (Hnone _ Hrun). simpl. lia.
  - split; [|split].
    + by intros data Hin%Hrun.
    + intros _. right. split; [done|]. intros t Ht. by apply with_failures_in.
    + rewrite (Hnone _ Hrun). simpl. lia.
Qed.

(** X15. A call never changes the context, the output format or the
    maximum length of the translator, and never removes a key of the
    store: a key present before is present afterwards. *)
Theorem batch_translate_keeps_configuration claude self texts :
  context (after (batch_translate claude self texts)) = context self ∧
  output_format (after (batch_translate claude self texts)) = output_format self ∧
  max_length (after (batch_translate claude self texts)) = max_length self ∧
  (∀ key, is_Some (_data (cache self) !! key) →
          is_Some (_data (cache (after (batch_translate claude self texts))) !! key)).
Proof.
  destruct (batch_translate_cases claude self texts)
    as [->|[[results ->]|[(results & _ & ->)|(results & _ & ->)]]];
    cbn [after context output_format max_length cache]; try done.
  - repeat split. intros key. apply set_batch_keeps.
  - repeat split. intros key. apply set_batch_keeps.
Qed.

Lemma format_items_raises self items results original :
  (original, JOther) ∈ items → (format_items self items results).2 = true.
Proof.
  revert results. induction items as [|[k [s|]] items IH]; intros results Hin;
    simpl; [by apply elem_of_nil in Hin| |done].
  apply IH. by apply elem_of_cons in Hin as [[=]|?].
Qed.

(** X16. The handler [except Exception]: when [subprocess.run] raises
    something other than the timeout, or the decoded object holds a value
    that is not a string, the call still returns; every to-translate phrase
    maps to the failure sentinel, the translator is unchanged and nothing
    is flushed, even for the entries of the object read before the bad
    value. *)
Theorem batch_translate_other_exception claude self texts :
  other_exception (claude (prompt_of self texts)) →
  (∀ t, t ∈ to_translate self texts →
        returned (batch_translate claude self texts) !! t = Some translation_failed) ∧
  after (batch_translate claude self texts) = self ∧
  (∀ data, CacheSave data ∉ trace (batch_translate claude self texts)).
Proof.
  intros Hexc.
  assert (∀ data, CacheSave data
                  ∉ probes_of self texts ++ [OracleRun (prompt_of self texts)])
    as Hrun.
  { intros data. rewrite probes_of_eq.
    intros [(t & [=] & _)%list_elem_of_fmap|Hin%list_elem_of_singleton]%elem_of_app.
    done. }
  destruct (decide (to_translate self texts = [])) as [Htodo|Htodo].
  { rewrite batch_translate_cached by done. cbn [returned after trace].
    split; [|split; [done|]].
    - intros t Ht. rewrite Htodo in Ht. by apply elem_of_nil in Ht.
    - intros data. rewrite probes_of_eq. by intros (t & [=] & _)%list_elem_of_fmap. }
  inversion Hexc as [Hrun'|out js items k Hsearch Hloads Hk Hrun'].
  - rewrite batch_translate_failed; [|done|].
    2: { intros items (out & js & Heq & _). congruence. }
    cbn [returned after trace]. split; [|done].
    intros t Ht. by apply with_failures_in.
  - rewrite (batch_translate_decoded _ _ _ items); [|done|].
    2: { exists out, js. by rewrite <-Hrun'. }
    pose proof (format_items_raises self items (hits_of self texts) k Hk) as Hraised.
    destruct (format_items self items (hits_of self texts)) as [results raised].
    simpl in Hraised. subst raised. cbn [returned after trace]. split; [|done].
    intros t Ht. by apply with_failures_in.
Qed.

(** X17. A cache hit is returned as stored: a phrase of the list with a
    non-empty cache entry that is not a key of an object decoded from the
    oracle's answer maps to its cached value, on every path of the call. *)
Theorem batch_translate_hit_value claude self texts t :
  t ∈ texts → is_hit self t = true →
  (∀ items, oracle_object (claude (prompt_of self texts)) items → t ∉ items.*1) →
  returned (batch_translate claude self texts) !! t = cached self t.
Proof.
  intros Ht Hhit Hkey.
  assert (t ∉ to_translate self texts) as Hnot.
  { intros [_ ?]%to_translate_elem. congruence. }
  destruct (decide (to_translate self texts = [])) as [Htodo|Htodo].
  { rewrite batch_translate_cached by done. by apply hits_lookup_hit. }
  destruct (oracle_object_dec (claude (prompt_of self texts)))
    as [[items Hobj]|Hnone].
  - rewrite (batch_translate_decoded _ _ _ items) by done.
    pose proof (format_items_notin self items (hits_of self texts) t
                  (Hkey items Hobj)) as Hsame.
    destruct (format_items self items (hits_of self texts)) as [results []];
      [|destruct (file_write _)]; cbn [fst] in Hsame; cbn [returned].
    + rewrite with_failures_notin by done. rewrite Hsame. by apply hits_lookup_hit.
    + rewrite Hsame. by apply hits_lookup_hit.
    + rewrite with_failures_notin by done. rewrite Hsame. by apply hits_lookup_hit.
  - rewrite batch_translate_failed by done. cbn [returned].
    rewrite with_failures_notin by done. by apply hits_lookup_hit.
Qed.

(** *** The single-phrase entry point *)


(** X18. [translate] of a phrase with a non-empty cache entry returns that
    entry after a single cache probe: no oracle call, no flush, the
    translator unchanged. *)
Theorem translate_hit claude self text :
  is_hit self text = true →
  Some (translate claude self text).1 = cached self text ∧
  after (translate claude self text).2 = self ∧
  trace (translate claude self text).2 = [CacheGet (key_of self text)].
Proof.
  intros Hhit. unfold translate. cbn [fst snd].
  assert (to_translate self [text] = []) as Htodo.
  { apply to_translate_nil. by intros t ->%list_elem_of_singleton. }
  rewrite batch_translate_cached by done. cbn [returned after trace].
  rewrite probes_of_eq. split; [|done].
  rewrite hits_lookup_hit; [|by left|done].
  by destruct (is_hit_cached self text Hhit) as (c & s & ->).
Qed.


End EngineInvariants.

(** X13 (witness). The phrase X, cached, asked for twice. *)
Lemma batch_translate_all_cached_witness :
  (∀ t, t ∈ ["X"; "X"] → is_hit (rt := Fixture.rt0) warm t = true) ∧
  after (batch_translate (rt := Fixture.rt0) Fixture.never_answers warm ["X"; "X"])
  = warm.
Proof.
  assert (∀ t, t ∈ ["X"; "X"] → is_hit (rt := Fixture.rt0) warm t = true) as Hall.
  { intros t Ht. repeat (apply elem_of_cons in Ht as [->|Ht]); [reflexivity..|].
    by apply elem_of_nil in Ht. }
  split; [exact Hall|].
  exact (proj1 (proj2 (batch_translate_all_cached (rt := Fixture.rt0)
                         Fixture.never_answers warm ["X"; "X"] Hall))).
Defined.

(** X16 (witness). The oracle prints an object with the number 5 for X. *)
Lemma batch_translate_other_exception_witness :
  other_exception (rt := number_runtime)
    (Fixture.answers number_text
       (_build_prompt Fixture.kebab30
          (to_translate (rt := number_runtime) Fixture.kebab30 ["X"]))) ∧
  returned (batch_translate (rt := number_runtime) (Fixture.answers number_text)
              Fixture.kebab30 ["X"]) !! "X"
  = Some translation_failed.
Proof.
  assert (other_exception (rt := number_runtime)
            (Fixture.answers number_text
               (_build_prompt Fixture.kebab30
                  (to_translate (rt := number_runtime) Fixture.kebab30 ["X"]))))
    as Hexc.
  { apply (exception_format (rt := number_runtime) number_text number_text
             [("X", JOther)] "X"); [vm_compute; reflexivity..|left]. }
  split; [exact Hexc|].
  apply (proj1 (batch_translate_other_exception (rt := number_runtime)
                  (Fixture.answers number_text) Fixture.kebab30 ["X"] Hexc)).
  vm_compute. left.
Defined.

(** X17 (witness). The phrase X, cached, with an oracle that never
    answers. *)
Lemma batch_translate_hit_value_witness :
  "X" ∈ ["X"] ∧ is_hit (rt := Fixture.rt0) warm "X" = true ∧
  (∀ items,
     oracle_object (rt := Fixture.rt0)
       (Fixture.never_answers
          (_build_prompt warm (to_translate (rt := Fixture.rt0) warm ["X"])))
       items → "X" ∉ items.*1) ∧
  returned (batch_translate (rt := Fixture.rt0) Fixture.never_answers warm ["X"])
    !! "X"
  = get (rt := Fixture.rt0) (cache warm) "X" (context warm) (output_format warm).
Proof.
  assert ("X" ∈ ["X"]) as Hin by left.
  assert (is_hit (rt := Fixture.rt0) warm "X" = true) as Hhit by reflexivity.
  assert (∀ items,
            oracle_object (rt := Fixture.rt0)
              (Fixture.never_answers
                 (_build_prompt warm (to_translate (rt := Fixture.rt0) warm ["X"])))
              items → "X" ∉ items.*1) as Hkey.
  { intros items (out & js & Heq & _). discriminate Heq. }
  split; [exact Hin|]. split; [exact Hhit|]. split; [exact Hkey|].
  exact (batch_translate_hit_value (rt := Fixture.rt0) Fixture.never_answers warm
           ["X"] "X" Hin Hhit Hkey).
Defined.

(** X18 (witness). [translate] of the cached phrase X. *)
Lemma translate_hit_witness :
  is_hit (rt := Fixture.rt0) warm "X" = true ∧
  Some (translate (rt := Fixture.rt0) Fixture.never_answers warm "X").1
  = get (rt := Fixture.rt0) (cache warm) "X" (context warm) (output_format warm).
Proof.
  assert (is_hit (rt := Fixture.rt0) warm "X" = true) as Hhit by reflexivity.
  split; [exact Hhit|].
  exact (proj1 (translate_hit (rt := Fixture.rt0) Fixture.never_answers warm "X"
                  Hhit)).
Defined.


(** ** Prompt builder *)

(** X20. The prompt lists every phrase it is given with its 1-based index
    (the phrase at position [i] as [i+1. phrase]), states the maximum
    length in decimal, and holds a non-empty context verbatim. *)
Theorem build_prompt_contents (self : Translator) (texts : list string) :
  (∀ i t, texts !! i = Some t →
     occurs (pretty (Z.of_nat i + 1) +:+ ". " +:+ t) (_build_prompt self texts)) ∧
  occurs (pretty (max_length self)) (_build_prompt self texts) ∧
  (∀ c s, context self = Some (String c s) →
     occurs (String c s) (_build_prompt self texts)).
Proof.
  split; [by apply build_prompt_item|]. unfold _build_prompt. cbv zeta. split.
  - apply occurs_app_l.
    assert (∀ a b c d, occurs (pretty (max_length self))
              (a +:+ b +:+ c +:+ pretty (max_length self) +:+ d)) as Hmax.
    { intros a b c d. do 3 apply occurs_app_r. apply occurs_app_l, occurs_refl. }
    destruct (context self) as [[|c s]|]; [apply Hmax| |apply Hmax].
    apply occurs_app_l, Hmax.
  - intros c s ->. apply occurs_app_l.
    do 2 apply occurs_app_r. apply occurs_app_l, occurs_refl.
Qed.

(** ** Context discovery *)

Section ContextDiscovery.
Implicit Types (env : environment) (collected added : list string)
  (context context_file : option string).

Lemma grows_refl collected : grows collected collected.
Proof. exists []. by rewrite app_nil_r. Qed.

Lemma grows_trans c1 c2 c3 : grows c1 c2 → grows c2 c3 → grows c1 c3.
Proof.
  intros (a1 & -> & H1) (a2 & -> & H2). exists (a1 ++ a2).
  split; [by rewrite app_assoc|by apply Forall_app].
Qed.

Lemma grows_one collected (x : string) : x ≠ "" → grows collected (collected ++ [x]).
Proof. intros Hx. exists [x]. split; [done|by repeat constructor]. Qed.

Lemma grows_nil collected : grows collected [] → collected = [].
Proof. intros (added & Heq & _). symmetry in Heq. by apply app_eq_nil in Heq as [? _]. Qed.

Lemma snoc_ne collected (x : string) : collected ++ [x] ≠ collected.
Proof.
  intros Heq. apply (f_equal length) in Heq. rewrite length_app in Heq.
  simpl in Heq. lia.
Qed.

Lemma headed_ne (c : ascii) (h rest : string) : String c h +:+ rest ≠ "".
Proof. by rewrite app_cons. Qed.

Lemma add_context_grows context collected :
  grows collected (add_context context collected).
Proof.
  destruct context as [[|c s]|]; simpl; [apply grows_refl| |apply grows_refl].
  by apply grows_one.
Qed.

Lemma add_environ_grows env collected :
  grows collected (add_environ env collected).
Proof.
  unfold add_environ.
  destruct (environ_context env) as [[|c s]|]; [apply grows_refl| |apply grows_refl].
  by apply grows_one.
Qed.

Lemma load_context_file_grows env context_file collected collected' :
  load_context_file env context_file collected = Returns collected' →
  grows collected collected' ∧
  (collected' = collected →
   ∀ file, context_file = Some file → paths env !! file = None).
Proof.
  unfold load_context_file. destruct context_file as [file|].
  - destruct (paths env !! file) as [[text|]|] eqn:Hfile; simpl; [| |].
    + intros [= <-]. split; [by apply grows_one|].
      by intros ?%snoc_ne.
    + done.
    + intros [= <-]. split; [apply grows_refl|]. by intros _ ? [= <-].
  - intros [= <-]. split; [apply grows_refl|done].
Qed.

Lemma load_dedicated_grows env patterns collected collected' :
  load_dedicated env patterns collected = Returns collected' →
  grows collected collected' ∧
  (collected' = collected → ∀ p, p ∈ patterns → paths env !! p = None).
Proof.
  induction patterns as [|pattern rest IH]; simpl.
  - intros [= <-]. split; [apply grows_refl|]. by intros _ p ?%elem_of_nil.
  - destruct (paths env !! pattern) as [[text|]|] eqn:Hp; simpl.
    + intros [= <-]. split; [by apply grows_one|]. by intros ?%snoc_ne.
    + done.
    + intros [Hg Hsame]%IH. split; [done|].
      intros Heq p [->|Hin]%elem_of_cons; [done|by apply Hsame].
Qed.

Lemma load_project_file_grows env name header limit collected collected' :
  header ≠ "" →
  load_project_file env name header limit collected = Returns collected' →
  grows collected collected' ∧
  (collected' = collected → paths env !! name = None).
Proof.
  intros Hheader. unfold load_project_file.
  destruct (paths env !! name) as [[text|]|]; simpl.
  - intros [= <-]. split; [|by intros ?%snoc_ne].
    apply grows_one. destruct header; [done|apply headed_ne].
  - done.
  - intros [= <-]. split; [apply grows_refl|done].
Qed.

Lemma load_docs_length files docs_content docs_content' :
  load_docs files docs_content = Returns docs_content' →
  length docs_content' = (length docs_content + length files)%nat.
Proof.
  revert docs_content. induction files as [|[name [text|]] files IH];
    intros docs_content; simpl; [by intros [= <-]; lia| |done].
  intros ->%IH. rewrite length_app. simpl. lia.
Qed.

Lemma load_docs_dir_grows env collected collected' :
  load_docs_dir env collected = Returns collected' →
  grows collected collected' ∧
  (collected' = collected → ∀ files, docs_md env = Some files → files = []).
Proof.
  unfold load_docs_dir. destruct (docs_md env) as [files|].
  - destruct (load_docs (take 5 files) []) as [docs_content|] eqn:Hdocs; simpl;
      [|done].
    apply load_docs_length in Hdocs. simpl in Hdocs.
    destruct docs_content as [|d docs_content].
    + intros [= <-]. split; [apply grows_refl|].
      intros _ ? [= <-]. destruct files; [done|]. simpl in Hdocs. lia.
    + intros [= <-]. split; [by apply grows_one|]. by intros ?%snoc_ne.
  - intros [= <-]. split; [apply grows_refl|done].
Qed.

(** The stages of [_load_context], one after the other. *)
Lemma load_context_stages env context context_file result :
  _load_context env context context_file = Returns result →
  ∃ c1 c2 c3 c4 c5,
    load_context_file env context_file (add_context context []) = Returns c1 ∧
    load_dedicated env context_patterns (add_environ env c1) = Returns c2 ∧
    load_project_file env "CLAUDE.md" "# From CLAUDE.md (project description)"
      2000 c2 = Returns c3 ∧
    load_project_file env "README.md" "# From README.md" 1500 c3 = Returns c4 ∧
    load_docs_dir env c4 = Returns c5 ∧
    result = match c5 with
             | [] => None
             | _ => Some (join context_separator c5)
             end.
Proof.
  unfold _load_context.
  destruct (load_context_file env context_file (add_context context []))
    as [c1|] eqn:H1; cbn [mbind io_bind]; [|done].
  destruct (load_dedicated env context_patterns (add_environ env c1))
    as [c2|] eqn:H2; cbn [mbind io_bind]; [|done].
  destruct (load_project_file env "CLAUDE.md" _ 2000 c2)
    as [c3|] eqn:H3; cbn [mbind io_bind]; [|done].
  destruct (load_project_file env "README.md" _ 1500 c3)
    as [c4|] eqn:H4; cbn [mbind io_bind]; [|done].
  destruct (load_docs_dir env c4) as [c5|] eqn:H5; cbn [mbind io_bind]; [|done].
  intros [= <-]. by exists c1, c2, c3, c4, c5.
Qed.

Lemma load_context_collected env context context_file result :
  _load_context env context context_file = Returns result →
  ∃ collected,
    grows (add_context context []) collected ∧
    result = match collected with
             | [] => None
             | _ => Some (join context_separator collected)
             end.
Proof.
  intros (c1 & c2 & c3 & c4 & c5 & H1 & H2 & H3 & H4 & H5 & ->)%load_context_stages.
  exists c5. split; [|done].
  apply load_context_file_grows in H1 as [H1 _].
  apply load_dedicated_grows in H2 as [H2 _].
  apply load_project_file_grows in H3 as [H3 _]; [|done].
  apply load_project_file_grows in H4 as [H4 _]; [|done].
  apply load_docs_dir_grows in H5 as [H5 _].
  pose proof (add_environ_grows env c1).
  eauto 10 using grows_trans.
Qed.

Lemma join_prefix (sep x : string) (rest : list string) :
  prefix_of x (join sep (x :: rest)).
Proof.
  destruct rest as [|y rest].
  - exists "". by rewrite app_empty_r.
  - by exists (sep +:+ join sep (y :: rest)).
Qed.

(** X21. The context [_load_context] returns is never the empty text: it
    is absent or holds at least one character. *)
Theorem load_context_not_empty env context context_file r :
  _load_context env context context_file = Returns (Some r) → r ≠ "".
Proof.
  intros (collected & Hgrows & Hr)%load_context_collected.
  destruct collected as [|x rest]; [done|]. injection Hr as ->.
  assert (x ≠ "") as Hx.
  { destruct Hgrows as (added & Heq & Hadded).
    destruct context as [[|c s]|]; simpl in Heq.
    - subst added. by apply Forall_cons in Hadded as [? _].
    - by injection Heq as -> _.
    - subst added. by apply Forall_cons in Hadded as [? _]. }
  destruct x as [|c x]; [done|].
  destruct rest; [done|apply headed_ne].
Qed.

(** X22. A directly given, non-empty context comes first: whenever
    [_load_context] returns, it returns a text that starts with it. *)
Theorem load_context_direct_first env c s context_file result :
  _load_context env (Some (String c s)) context_file = Returns result →
  ∃ r, result = Some r ∧ prefix_of (String c s) r.
Proof.
  intros (collected & (added & -> & _) & ->)%load_context_collected.
  simpl. eexists. split; [done|]. apply join_prefix.
Qed.

(** X23. [_load_context] returns no context exactly when there is nothing
    to collect: no (or an empty) direct context, no existing context file,
    no (or an empty) environment variable, none of the four dedicated
    files, no CLAUDE.md, no README.md and no markdown file in docs. *)
Theorem load_context_none env context context_file :
  _load_context env context context_file = Returns None
  ↔ (context = None ∨ context = Some "") ∧
    (∀ file, context_file = Some file → paths env !! file = None) ∧
    (environ_context env = None ∨ environ_context env = Some "") ∧
    (∀ p, p ∈ context_patterns → paths env !! p = None) ∧
    paths env !! "CLAUDE.md" = None ∧
    paths env !! "README.md" = None ∧
    (∀ files, docs_md env = Some files → files = []).
Proof.
  split.
  - intros (c1 & c2 & c3 & c4 & c5 & H1 & H2 & H3 & H4 & H5 & Hr)%load_context_stages.
    destruct c5; [clear Hr|done].
    apply load_docs_dir_grows in H5 as [->%grows_nil H5].
    apply load_project_file_grows in H4 as [->%grows_nil H4]; [|done].
    apply load_project_file_grows in H3 as [->%grows_nil H3]; [|done].
    apply load_dedicated_grows in H2 as [He%grows_nil H2].
    pose proof (add_environ_grows env c1) as Hc1. rewrite He in Hc1.
    apply grows_nil in Hc1 as ->.
    apply load_context_file_grows in H1 as [Hc%grows_nil H1].
    split; [|split; [|split; [|split; [|split; [|split]]]]].
    + destruct context as [[|c s]|]; [by right|done|by left].
    + apply H1. by rewrite Hc.
    + unfold add_environ in He.
      destruct (environ_context env) as [[|c s]|]; [by right|done|by left].
    + apply H2. by rewrite He.
    + by apply H3.
    + by apply H4.
    + by apply H5.
  - intros (Hctx & Hfile & Henv & Hded & Hclaude & Hreadme & Hdocs).
    unfold _load_context.
    assert (add_context context [] = []) as -> by (by destruct Hctx as [->| ->]).
    assert (load_context_file env context_file [] = Returns []) as ->.
    { unfold load_context_file. destruct context_file as [file|]; [|done].
      by rewrite (Hfile file eq_refl). }
    cbn [mbind io_bind].
    assert (add_environ env [] = []) as ->.
    { unfold add_environ. by destruct Henv as [->| ->]. }
    assert (load_dedicated env context_patterns [] = Returns []) as ->.
    { unfold context_patterns. cbn [load_dedicated].
      rewrite !Hded; [done|unfold context_patterns; by repeat constructor..]. }
    cbn [mbind io_bind]. unfold load_project_file. rewrite Hclaude, Hreadme.
    cbn [mbind io_bind]. unfold load_docs_dir.
    destruct (docs_md env) as [files|]; [|done].
    by rewrite (Hdocs files eq_refl).
Qed.

(** *** What [_load_context] reads *)

Lemma load_context_file_ext env env' context_file collected :
  (∀ file, context_file = Some file → paths env' !! file = paths env !! file) →
  load_context_file env' context_file collected
  = load_context_file env context_file collected.
Proof.
  intros Hfile. unfold load_context_file. destruct context_file as [file|]; [|done].
  by rewrite (Hfile file eq_refl).
Qed.

Lemma load_dedicated_ext env env' patterns collected :
  (∀ p, p ∈ patterns → paths env' !! p = paths env !! p) →
  load_dedicated env' patterns collected = load_dedicated env patterns collected.
Proof.
  induction patterns as [|p patterns IH]; intros Hp; [done|].
  cbn [load_dedicated]. rewrite (Hp p) by (by left).
  rewrite IH; [done|]. intros q Hq. apply Hp. by right.
Qed.

Lemma load_project_file_ext env env' name header limit collected :
  paths env' !! name = paths env !! name →
  load_project_file env' name header limit collected
  = load_project_file env name header limit collected.
Proof. intros Hname. unfold load_project_file. by rewrite Hname. Qed.

Lemma load_docs_dir_ext env env' collected :
  take 5 <$> docs_md env' = take 5 <$> docs_md env →
  load_docs_dir env' collected = load_docs_dir env collected.
Proof.
  unfold load_docs_dir.
  destruct (docs_md env') as [files'|], (docs_md env) as [files|]; simpl;
    intros Heq; try discriminate; [|done].
  injection Heq as Heq. by rewrite Heq.
Qed.

(** X24. [_load_context] reads nothing but the environment variable, the
    context file, the four dedicated files, CLAUDE.md, README.md and the
    first five markdown files of docs: two environments that agree on
    these give the same result, whatever else differs (a sixth file of
    docs, any other path). *)
Theorem load_context_reads env env' context context_file :
  environ_context env' = environ_context env →
  (∀ file, context_file = Some file → paths env' !! file = paths env !! file) →
  (∀ p, p ∈ context_patterns ++ ["CLAUDE.md"; "README.md"] →
        paths env' !! p = paths env !! p) →
  take 5 <$> docs_md env' = take 5 <$> docs_md env →
  _load_context env' context context_file = _load_context env context context_file.
Proof.
  intros Henv Hfile Hnamed Hdocs. unfold _load_context.
  rewrite (load_context_file_ext env env') by done.
  destruct (load_context_file env context_file (add_context context []))
    as [c1|]; cbn [mbind io_bind]; [|done].
  unfold add_environ. rewrite Henv. fold (add_environ env c1).
  rewrite (load_dedicated_ext env env').
  2: { intros p Hp. apply Hnamed. apply elem_of_app. by left. }
  destruct (load_dedicated env context_patterns (add_environ env c1))
    as [c2|]; cbn [mbind io_bind]; [|done].
  rewrite (load_project_file_ext env env').
  2: { apply Hnamed. apply elem_of_app. right. by left. }
  destruct (load_project_file env "CLAUDE.md" _ 2000 c2)
    as [c3|]; cbn [mbind io_bind]; [|done].
  rewrite (load_project_file_ext env env').
  2: { apply Hnamed. apply elem_of_app. right. right. by left. }
  destruct (load_project_file env "README.md" _ 1500 c3)
    as [c4|]; cbn [mbind io_bind]; [|done].
  by rewrite (load_docs_dir_ext env env').
Qed.

Lemma load_dedicated_stop env pre p post collected n :
  (∀ q, q ∈ pre → paths env !! q = None) →
  paths env !! p = Some n →
  load_dedicated env (pre ++ p :: post) collected
  = (content ← read_text n;
     Returns (collected ++ ["# From " +:+ p +:+ newline +:+ content])).
Proof.
  intros Hpre Hp. induction pre as [|q pre IH]; cbn [load_dedicated app].
  - by rewrite Hp.
  - rewrite (Hpre q) by (by left). apply IH. intros r Hr. apply Hpre. by right.
Qed.

(** X25. Only the first dedicated context file that exists is read: the
    dedicated files listed after it do not matter, whether they exist,
    and whether they can be read. *)
Theorem load_context_first_dedicated env env' context context_file pre p post :
  context_patterns = pre ++ p :: post →
  (∀ q, q ∈ pre → paths env !! q = None) →
  is_Some (paths env !! p) →
  environ_context env' = environ_context env →
  docs_md env' = docs_md env →
  (∀ q, q ∉ post → paths env' !! q = paths env !! q) →
  (∀ file, context_file = Some file → file ∉ post) →
  _load_context env' context context_file = _load_context env context context_file.
Proof.
  intros Hpat Hpre [n Hp] Henv Hdocs Hpaths Hfile.
  assert (NoDup (pre ++ p :: post)) as Hnodup.
  { rewrite <-Hpat. apply (bool_decide_unpack _). vm_compute. exact I. }
  apply NoDup_app in Hnodup as (_ & Hdisj & [Hp' _]%NoDup_cons).
  assert (∀ q, q ∈ post → q ∈ context_patterns) as Hpost.
  { intros q Hq. rewrite Hpat. apply elem_of_app. right. by right. }
  assert (∀ q, q ∈ pre → q ∉ post) as Hpre'.
  { intros q Hq Hq'. apply (Hdisj q Hq). by right. }
  unfold _load_context.
  rewrite (load_context_file_ext env env').
  2: { intros file Hf. apply Hpaths. by apply Hfile. }
  destruct (load_context_file env context_file (add_context context []))
    as [c1|]; cbn [mbind io_bind]; [|done].
  unfold add_environ. rewrite Henv. fold (add_environ env c1).
  rewrite Hpat.
  rewrite (load_dedicated_stop env pre p post _ n) by done.
  rewrite (load_dedicated_stop env' pre p post _ n).
  2: { intros q Hq. rewrite Hpaths by auto. by apply Hpre. }
  2: { by rewrite Hpaths. }
  destruct (read_text n) as [content|]; cbn [mbind io_bind]; [|done].
  rewrite (load_project_file_ext env env').
  2: { apply Hpaths. intros Hin%Hpost. revert Hin. apply (bool_decide_unpack _).
       vm_compute. exact I. }
  destruct (load_project_file env "CLAUDE.md" _ 2000 _)
    as [c3|]; cbn [mbind io_bind]; [|done].
  rewrite (load_project_file_ext env env').
  2: { apply Hpaths. intros Hin%Hpost. revert Hin. apply (bool_decide_unpack _).
       vm_compute. exact I. }
  destruct (load_project_file env "README.md" _ 1500 c3)
    as [c4|]; cbn [mbind io_bind]; [|done].
  rewrite (load_docs_dir_ext env env'); [done|by rewrite Hdocs].
Qed.

Lemma load_docs_unreadable files docs_content name :
  (name, Unreadable) ∈ files → load_docs files docs_content = Raises.
Proof.
  revert docs_content. induction files as [|[k [text|]] files IH];
    intros docs_content Hin; [by apply elem_of_nil in Hin| |done].
  cbn [load_docs read_text mbind io_bind]. apply IH.
  by apply elem_of_cons in Hin as [[=]|?].
Qed.

(** X26. Reading the context is not guarded: when a source that
    [_load_context] uses exists but cannot be read (the context file, the
    first existing dedicated file, CLAUDE.md, README.md or one of the first
    five markdown files of docs), [_load_context] raises. *)
Theorem load_context_unreadable env context context_file :
  (∃ file, context_file = Some file ∧ paths env !! file = Some Unreadable) ∨
  (∃ pre p post, context_patterns = pre ++ p :: post ∧
     (∀ q, q ∈ pre → paths env !! q = None) ∧ paths env !! p = Some Unreadable) ∨
  paths env !! "CLAUDE.md" = Some Unreadable ∨
  paths env !! "README.md" = Some Unreadable ∨
  (∃ files name, docs_md env = Some files ∧ (name, Unreadable) ∈ take 5 files) →
  _load_context env context context_file = Raises.
Proof.
  intros Hbad. unfold _load_context.
  destruct (load_context_file env context_file (add_context context []))
    as [c1|] eqn:H1; cbn [mbind io_bind]; [|done].
  destruct Hbad as [(file & -> & Hfile)|Hbad].
  { unfold load_context_file in H1. by rewrite Hfile in H1. }
  destruct (load_dedicated env context_patterns (add_environ env c1))
    as [c2|] eqn:H2; cbn [mbind io_bind]; [|done].
  destruct Hbad as [(pre & p & post & Hpat & Hpre & Hp)|Hbad].
  { rewrite Hpat, (load_dedicated_stop env pre p post _ Unreadable) in H2 by done.
    done. }
  destruct (load_project_file env "CLAUDE.md" _ 2000 c2)
    as [c3|] eqn:H3; cbn [mbind io_bind]; [|done].
  destruct Hbad as [Hclaude|Hbad].
  { unfold load_project_file in H3. by rewrite Hclaude in H3. }
  destruct (load_project_file env "README.md" _ 1500 c3)
    as [c4|] eqn:H4; cbn [mbind io_bind]; [|done].
  destruct Hbad as [Hreadme|(files & name & Hdocs & Hin)].
  { unfold load_project_file in H4. by rewrite Hreadme in H4. }
  unfold load_docs_dir. rewrite Hdocs.
  by rewrite (load_docs_unreadable _ _ name Hin).
Qed.

End ContextDiscovery.

(** X21 (witness). The project of the examples with a direct context. *)
Lemma load_context_not_empty_witness :
  (∃ r, _load_context project (Some "ctx") None = Returns (Some r) ∧ r ≠ "").
Proof.
  eexists. split; [vm_compute; reflexivity|].
  eapply (load_context_not_empty project (Some "ctx") None).
  vm_compute. reflexivity.
Defined.

(** X22 (witness). The project of the examples with the direct context
    [ctx]. *)
Lemma load_context_direct_first_witness :
  ∃ result, _load_context project (Some "ctx") None = Returns result ∧
            ∃ r, result = Some r ∧ prefix_of "ctx" r.
Proof.
  eexists. split; [vm_compute; reflexivity|].
  eapply (load_context_direct_first project "c" "tx" None).
  vm_compute. reflexivity.
Defined.

(** X24 (witness). The project of the examples and the same project with
    a readable sixth document and one more path. *)
Lemma load_context_reads_witness :
  _load_context
    {| environ_context := None;
       paths := <["notes.txt" := Text "unrelated"]> (paths project);
       docs_md := Some [("a.md", Text "one"); ("b.md", Text "two");
                        ("c.md", Text "three"); ("d.md", Text "four");
                        ("e.md", Text "five"); ("f.md", Text "six")] |}
    (Some "ctx") None
  = _load_context project (Some "ctx") None.
Proof.
  apply load_context_reads.
  - reflexivity.
  - intros file [=].
  - intros p Hp. apply lookup_insert_ne. intros <-. revert Hp.
    apply (bool_decide_unpack _). vm_compute. exact I.
  - reflexivity.
Defined.

(** X25 (witness). The project of the examples has .context.md; a
    CONTEXT.md that cannot be read changes nothing. *)
Lemma load_context_first_dedicated_witness :
  _load_context
    {| environ_context := None;
       paths := <["CONTEXT.md" := Unreadable]> (paths project);
       docs_md := docs_md project |}
    (Some "ctx") None
  = _load_context project (Some "ctx") None.
Proof.
  apply (load_context_first_dedicated project _ (Some "ctx") None
           [] ".context.md" [".context.txt"; "CONTEXT.md"; "context.md"]).
  - reflexivity.
  - by intros q ?%elem_of_nil.
  - by eexists.
  - reflexivity.
  - reflexivity.
  - intros q Hq. apply lookup_insert_ne. intros <-. apply Hq.
    by repeat constructor.
  - intros file [=].
Defined.

(** X26 (witness). A directory whose CLAUDE.md cannot be read. *)
Lemma load_context_unreadable_witness :
  paths locked !! "CLAUDE.md" = Some Unreadable ∧
  _load_context locked None None = Raises.
Proof.
  assert (paths locked !! "CLAUDE.md" = Some Unreadable) as Hbad by reflexivity.
  split; [exact Hbad|].
  apply load_context_unreadable. right. right. left. exact Hbad.
Defined.
